(* ===================================================================== *)
(* Artist-name normalisation and metadata-write engine                   *)
(*   jellyfin/format-music-file-metadata.py, jellyfin/format-metadata.py *)
(* A shallow embedding of the Python code and the properties it has.     *)
(*                                                                       *)
(* What is modelled, and how:                                            *)
(*  - a str is the list of its characters, code points below 256;        *)
(*  - re.sub on the patterns of parse_artists, by a backtracking matcher *)
(*    for the atoms they are made of;                                    *)
(*  - an audio file as mutagen opens it: its class and, per key, the     *)
(*    list of values of its tag container; audio.save() stores them and  *)
(*    a later mutagen.File reads them back;                              *)
(*  - a sidecar document as ElementTree holds it: tags, texts, children; *)
(*    tree.write stores the indented tree and ET.parse reads it back;    *)
(*  - the file system as a finite map from paths to contents, together   *)
(*    with the trace of what a call printed, copied and saved;           *)
(*  - what the program cannot decide (the clock, a failing tag           *)
(*    assignment, the answers of MusicBrainz) as parameters.             *)
(* ===================================================================== *)

From Stdlib Require Import Ascii String List Bool Arith Lia.
From stdpp Require Import base gmap strings list fin_maps.
Import ListNotations.

Local Open Scope list_scope.

(* ===================================================================== *)
(* 1. Text                                                               *)
(* ===================================================================== *)

(* A Python str is modelled as the list of its characters; a character is
   a code point below 256.  Literals are written with [txt]. *)
Abbreviation text := (list ascii).

Definition txt (s : string) : text := list_ascii_of_string s.

Definition code (c : ascii) : nat := nat_of_ascii c.

(* str.isspace() and the class \s of re on str patterns agree: both are
   Py_UNICODE_ISSPACE.  Below 256 that is TAB..CR, FS..US, SPACE, NEL and
   NO-BREAK SPACE. *)
Definition isspace (c : ascii) : bool :=
  let n := code c in
  ((9 <=? n) && (n <=? 13)) || ((28 <=? n) && (n <=? 32))
  || (n =? 133) || (n =? 160).

(* str.lower() on one character, and the case folding of re.IGNORECASE:
   below 256 the capital letters are A..Z and U+00C0..U+00DE without the
   multiplication sign, each 32 below its small letter. *)
Definition lower (c : ascii) : ascii :=
  let n := code c in
  if ((65 <=? n) && (n <=? 90))
     || ((192 <=? n) && (n <=? 222) && negb (n =? 215))
  then ascii_of_nat (n + 32) else c.

Definition ascii_eqb (a b : ascii) : bool := Ascii.eqb a b.

(* str.lstrip(), str.rstrip(), str.strip() without argument *)
Fixpoint lstrip (s : text) : text :=
  match s with
  | c :: s' => if isspace c then lstrip s' else s
  | [] => []
  end.

Fixpoint rstrip (s : text) : text :=
  match s with
  | c :: s' =>
      match rstrip s' with
      | [] => if isspace c then [] else [c]
      | r => c :: r
      end
  | [] => []
  end.

Definition strip (s : text) : text := rstrip (lstrip s).

(* str.split(d) for a one-character separator: n separators give n + 1
   pieces, and the empty string gives one empty piece. *)
Fixpoint split (d : ascii) (s : text) : list text :=
  match s with
  | [] => [[]]
  | c :: s' =>
      if ascii_eqb c d then [] :: split d s'
      else match split d s' with
           | h :: t => (c :: h) :: t
           | [] => [[c]]
           end
  end.

(* sep.join(l) *)
Fixpoint join (sep : text) (l : list text) : text :=
  match l with
  | [] => []
  | [x] => x
  | x :: l' => x ++ sep ++ join sep l'
  end.

(* Truthiness of a str: the empty string is false. *)
Definition truthy (s : text) : bool :=
  match s with [] => false | _ :: _ => true end.

(* ===================================================================== *)
(* 2. The fragment of re that parse_artists uses                         *)
(* ===================================================================== *)

Module Re.

(* \s+ , a literal character, and a literal character followed by ? *)
Inductive atom : Type :=
  | Spaces : atom
  | Chr : ascii -> atom
  | Opt : ascii -> atom.

Definition regex := list atom.

(* A pattern together with its flags (only re.IGNORECASE occurs). *)
Record pattern := Pattern { body : regex; ignorecase : bool }.

(* Does the character [x] of the input match the literal [c]? *)
Definition chr_match (ci : bool) (c x : ascii) : bool :=
  if ci then ascii_eqb (lower c) (lower x) else ascii_eqb c x.

(* The backtracking matcher, anchored at the head of the input: the rest of
   the input after the first match in priority order (quantifiers are
   greedy, the shorter alternatives are tried on failure), or None. *)
Fixpoint match_here (ci : bool) (r : regex) (s : text) {struct r} : option text :=
  match r with
  | [] => Some s
  | Chr c :: r' =>
      match s with
      | x :: s' => if chr_match ci c x then match_here ci r' s' else None
      | [] => None
      end
  | Opt c :: r' =>
      match s with
      | x :: s' =>
          if chr_match ci c x then
            match match_here ci r' s' with
            | Some t => Some t
            | None => match_here ci r' s
            end
          else match_here ci r' s
      | [] => match_here ci r' s
      end
  | Spaces :: r' =>
      (fix spaces (s : text) : option text :=
         match s with
         | x :: s' =>
             if isspace x then
               match spaces s' with
               | Some t => Some t
               | None => match_here ci r' s'
               end
             else None
         | [] => None
         end) s
  end.

(* re.sub(pattern, repl, s), Python 3.7 and later: the leftmost match is
   replaced and the scan resumes where it ended; an empty match is replaced
   and the scan moves on by one character.  [skip] counts the characters of
   the input that the last match still covers. *)
Fixpoint sub_from (p : pattern) (repl : text) (skip : nat) (s : text) : text :=
  match s with
  | [] =>
      match skip, match_here (ignorecase p) (body p) [] with
      | 0, Some _ => repl
      | _, _ => []
      end
  | c :: s' =>
      match skip with
      | S k => sub_from p repl k s'
      | 0 =>
          match match_here (ignorecase p) (body p) s with
          | Some rest =>
              if length rest <? length s
              then repl ++ sub_from p repl (length s' - length rest) s'
              else repl ++ c :: sub_from p repl 0 s'
          | None => c :: sub_from p repl 0 s'
          end
      end
  end.

Definition sub (p : pattern) (repl : text) (s : text) : text :=
  sub_from p repl 0 s.

(* The words a regex matches. *)
Inductive lang (ci : bool) : regex -> text -> Prop :=
  | lang_nil : lang ci [] []
  | lang_chr c x r w :
      chr_match ci c x = true -> lang ci r w -> lang ci (Chr c :: r) (x :: w)
  | lang_opt_some c x r w :
      chr_match ci c x = true -> lang ci r w -> lang ci (Opt c :: r) (x :: w)
  | lang_opt_none c r w :
      lang ci r w -> lang ci (Opt c :: r) w
  | lang_spaces_one x r w :
      isspace x = true -> lang ci r w -> lang ci (Spaces :: r) (x :: w)
  | lang_spaces_more x r w :
      isspace x = true -> lang ci (Spaces :: r) w -> lang ci (Spaces :: r) (x :: w).

(* The pattern matches somewhere in [s]. *)
Definition occurs (p : pattern) (s : text) : Prop :=
  exists u w v, s = u ++ w ++ v /\ lang (ignorecase p) (body p) w.

(* The literal characters of a regex. *)
Definition chars (r : regex) : list ascii :=
  flat_map (fun a => match a with Spaces => [] | Chr c => [c] | Opt c => [c] end) r.

(* The pattern starts with \s+ *)
Definition leading_spaces (p : pattern) : Prop :=
  exists r, body p = Spaces :: r.

(* A character that no atom of the regex accepts *)
Definition avoids (p : pattern) (x : ascii) : bool :=
  negb (isspace x)
  && forallb (fun c => negb (chr_match (ignorecase p) c x)) (chars (body p)).

(* re.search(pattern, s) is not None *)
Fixpoint search (p : pattern) (s : text) : bool :=
  match match_here (ignorecase p) (body p) s with
  | Some _ => true
  | None => match s with
            | [] => false
            | _ :: s' => search p s'
            end
  end.

End Re.

(* ===================================================================== *)
(* 3. parse_artists and format_artists_to_semicolon                      *)
(* ===================================================================== *)

Definition lit (s : string) : Re.regex := map Re.Chr (txt s).

(* r'\s+feat\.?\s+' and its siblings *)
Definition sep_dot (word : string) : Re.regex :=
  Re.Spaces :: lit word ++ [Re.Opt "."%char; Re.Spaces].

(* r'\s+featuring\s+' and its siblings *)
Definition sep_word (word : string) : Re.regex :=
  Re.Spaces :: lit word ++ [Re.Spaces].

(* The list [patterns] of parse_artists; each is used with re.IGNORECASE. *)
Definition patterns : list Re.pattern :=
  [ Re.Pattern (sep_dot "feat") true;
    Re.Pattern (sep_dot "ft") true;
    Re.Pattern (sep_word "featuring") true;
    Re.Pattern (sep_dot "Feat") true;
    Re.Pattern (sep_dot "Ft") true;
    Re.Pattern (sep_word "Featuring") true ].

Definition pat_amp : Re.pattern := Re.Pattern (sep_word "&") false.
Definition pat_and : Re.pattern := Re.Pattern (sep_word "and") true.

(* All the substitutions of parse_artists, in the order they are applied. *)
Definition rewrites : list Re.pattern := patterns ++ [pat_amp; pat_and].

Definition comma : ascii := ","%char.

Definition rewrite_separators (s : text) : text :=
  fold_left (fun result p => Re.sub p (txt ", ") result) rewrites s.

Definition parse_artists (artist_string : text) : list text :=
  if negb (truthy artist_string) then []
  else
    let result := rewrite_separators artist_string in
    let artists := map strip (split comma result) in
    List.filter truthy artists.

Definition format_artists_to_semicolon (artists_list : list text) : text :=
  join (txt ";") artists_list.


Definition all_space (s : text) : Prop := Forall (fun c => isspace c = true) s.

(* Every occurrence of the pattern in [s] starts in the white space that
   leads a comma-separated piece of [s]: behind the start of [s] or a
   comma there is white space only. *)
Definition confined (p : Re.pattern) (s : text) : Prop :=
  forall u w v,
    s = u ++ w ++ v -> Re.lang (Re.ignorecase p) (Re.body p) w ->
    exists a b, u = a ++ b /\ all_space b /\ (a = [] \/ exists a', a = a' ++ [comma]).

(* A name as parse_artists returns it: not empty, trimmed, without comma
   and without an occurrence of a separator. *)
Record clean_name (a : text) : Prop := {
  clean_nonempty : a <> [];
  clean_lstrip : lstrip a = a;
  clean_rstrip : rstrip a = a;
  clean_comma : ~ In comma a;
  clean_separators : forall p, In p rewrites -> ~ Re.occurs p a
}.

(* ===================================================================== *)
(* 4. Files, tags and the trace of effects                               *)
(* ===================================================================== *)

(* The class of the object mutagen.File returns.  [OtherKind] stands for
   the classes that none of the isinstance tests of the script accepts
   (OggOpus for instance). *)
Inductive FormatKind : Type :=
  | MP4 | FLAC | OggVorbis | MP3 | AIFF | WAVE | OtherKind.

(* An opened audio file: its class and its tag container.  [tags] is None
   when the file has no tag container; a key maps to the values stored
   under it (the text list of an ID3 frame, the values of a Vorbis comment,
   the values of an MP4 atom). *)
Record Audio := mkAudio {
  kind : FormatKind;
  tags : option (gmap string (list text))
}.

(* An element of an ElementTree: tag, text and children (tails are not
   modelled). *)
#[warnings="-register-all"]
Inductive Element : Type :=
  | Elem (tag : string) (etext : option text) (children : list Element).

Definition tag (e : Element) : string := match e with Elem t _ _ => t end.
Definition etext (e : Element) : option text := match e with Elem _ x _ => x end.
Definition children (e : Element) : list Element := match e with Elem _ _ cs => cs end.

(* What a path of the library holds. *)
Inductive Content : Type :=
  | AudioFile (a : Audio)        (* a container mutagen understands *)
  | XmlFile (root : Element)     (* a well-formed XML document *)
  | OtherFile (bytes : text).    (* anything else *)

Abbreviation Disk := (gmap string Content).

Inductive Proposed : Type :=
  | AsList (l : list text)       (* str(artists) *)
  | AsText (t : text).           (* ';'.join(artists) *)

Inductive Event : Type :=
  | Print (field : string) (current : text) (new_format : Proposed)
  | Copy2 (src dst : string)     (* shutil.copy2(src, dst) *)
  | Save (path : string).        (* audio.save() or tree.write(path) *)

(* The third component of the triples the update functions return. *)
Inductive Message : Type :=
  | UpdatedSuccessfully          (* "Updated successfully" *)
  | WouldBeUpdated               (* "Would be updated (dry run)" *)
  | NoChangesNeeded              (* "No changes needed" *)
  | UnsupportedFileFormat        (* "Unsupported file format" *)
  | FailedToUpdateArtist         (* "Failed to update artist" *)
  | FailedToUpdateAlbumArtist    (* "Failed to update album artist" *)
  | XmlParseError                (* f"XML parse error: {e}" *)
  | Error.                       (* f"Error: {e}" *)

Record Result := mkResult { success : bool; changed : bool; message : Message }.

(* What a call leaves behind: its result, the disk and what it did. *)
Record Run := mkRun { result : Result; disk : Disk; trace : list Event }.

(* datetime.now() *)
Record DateTime := mkDateTime {
  year : nat; month : nat; day : nat; hour : nat; minute : nat; second : nat
}.

Definition digit (n : nat) : ascii := ascii_of_nat (48 + n mod 10).

Definition pad2 (n : nat) : string :=
  String (digit (n / 10)) (String (digit n) EmptyString).

Definition pad4 (n : nat) : string :=
  String (digit (n / 1000)) (String (digit (n / 100)) (pad2 n)).

(* strftime("%Y%m%d_%H%M%S") *)
Definition strftime (t : DateTime) : string :=
  (pad4 (year t) ++ pad2 (month t) ++ pad2 (day t) ++ "_"
   ++ pad2 (hour t) ++ pad2 (minute t) ++ pad2 (second t))%string.

(* str(path) + f'.backup_{datetime.now().strftime("%Y%m%d_%H%M%S")}' *)
Definition backup_path (path : string) (now : DateTime) : string :=
  (path ++ ".backup_" ++ strftime now)%string.

(* shutil.copy2(src, dst) *)
Definition copy2 (src dst : string) (d : Disk) : Disk :=
  match d !! src with
  | Some c => <[dst := c]> d
  | None => d
  end.

Definition text_eqb (a b : text) : bool := bool_decide (a = b).

(* root.iter(): the element and its descendants in document order *)
Fixpoint iter (e : Element) : list Element :=
  match e with
  | Elem _ _ cs => e :: flat_map iter cs
  end.

(* root.findall('.//name'): the descendants with that tag, the root aside *)
Definition findall (name : string) (root : Element) : list Element :=
  List.filter (fun e => bool_decide (tag e = name)) (flat_map iter (children root)).

(* root.find('.//name') *)
Definition find (name : string) (root : Element) : option Element :=
  head (findall name root).

(* The text that ET.indent(tree, space="  ") gives the elements that have
   children: a blank text becomes a newline and the indentation of the
   children. *)
Definition indentation (level : nat) : text :=
  ascii_of_nat 10 :: concat (repeat (txt "  ") level).

Definition blank (x : option text) : bool :=
  match x with
  | None => true
  | Some s => negb (truthy s) || negb (truthy (strip s))
  end.

Fixpoint indent_children (level : nat) (e : Element) : Element :=
  match e with
  | Elem t x cs =>
      match cs with
      | [] => e
      | _ :: _ =>
          Elem t (if blank x then Some (indentation (S level)) else x)
               (map (indent_children (S level)) cs)
      end
  end.

Definition indent (root : Element) : Element := indent_children 0 root.

(* ===================================================================== *)
(* 5. format-music-file-metadata.py: tags of audio files                 *)
(* ===================================================================== *)

Definition key_ART : string := String (ascii_of_nat 169) "ART".   (* '\xa9ART' *)
Definition key_aART : string := "aART".
Definition key_artist : string := "artist".
Definition key_albumartist : string := "albumartist".
Definition key_TPE1 : string := "TPE1".
Definition key_TPE2 : string := "TPE2".

(* isinstance(audio, (FLAC, OggVorbis)) *)
Definition is_native (k : FormatKind) : bool :=
  match k with FLAC | OggVorbis => true | _ => false end.

(* Truthiness of audio_file.tags: None and the empty container are false. *)
Definition tags_truthy (a : Audio) : bool :=
  match tags a with
  | Some m => negb (bool_decide (m = ∅))
  | None => false
  end.

(* key in audio_file *)
Definition has_key (key : string) (a : Audio) : bool :=
  match tags a with
  | Some m => bool_decide (is_Some (m !! key))
  | None => false
  end.

(* audio_file[key][0]; the IndexError of an empty list is caught by the
   caller's except clause, which makes the getter return None. *)
Definition first_value (key : string) (a : Audio) : option text :=
  match tags a with
  | Some m => match m !! key with Some (v :: _) => Some v | _ => None end
  | None => None
  end.

(* str(audio_file.tags[key]) for an ID3 text frame: its strings joined by
   U+0000 *)
Definition frame_str (key : string) (a : Audio) : option text :=
  match tags a with
  | Some m => match m !! key with
              | Some vs => Some (join [ascii_of_nat 0] vs)
              | None => None
              end
  | None => None
  end.

(* The body shared by get_current_artist and get_current_album_artist. *)
Definition get_current (atom_key vorbis_key frame_key : string) (a : Audio)
  : option text :=
  match kind a with
  | MP4 => if has_key atom_key a then first_value atom_key a else None
  | FLAC | OggVorbis =>
      if has_key vorbis_key a then first_value vorbis_key a else None
  | MP3 | AIFF | WAVE =>
      if tags_truthy a && has_key frame_key a then frame_str frame_key a else None
  | OtherKind => None
  end.

Definition get_current_artist : Audio -> option text :=
  get_current key_ART key_artist key_TPE1.

Definition get_current_album_artist : Audio -> option text :=
  get_current key_aART key_albumartist key_TPE2.

(* audio_file.add_tags(): raises when a tag container is there already. *)
Definition add_tags (a : Audio) : option Audio :=
  match tags a with
  | None => Some (mkAudio (kind a) (Some ∅))
  | Some _ => None
  end.

(* audio_file[key] = values, on the file object: a missing container is
   created first; an empty list of values leaves the key absent. *)
Definition set_item (key : string) (values : list text) (a : Audio) : option Audio :=
  let store m :=
    mkAudio (kind a)
      (Some (match values with [] => delete key m | _ :: _ => <[key := values]> m end)) in
  match tags a with
  | Some m => Some (store m)
  | None => Some (store ∅)
  end.

(* if not audio_file.tags: audio_file.add_tags()
   audio_file.tags[key] = TPEx(encoding=3, text=value) *)
Definition set_frame (key : string) (value : text) (a : Audio) : option Audio :=
  match (if tags_truthy a then Some a else add_tags a) with
  | Some a' =>
      match tags a' with
      | Some m => Some (mkAudio (kind a') (Some (<[key := [value]]> m)))
      | None => None
      end
  | None => None
  end.

Section Engine.

(* Whether mutagen raises when the given key of a file of the given class
   is assigned. *)
Variable setter_raises : FormatKind -> string -> bool.

(* The body shared by update_artist and update_album_artist: None is the
   return value False, Some the value True with the file object as the
   assignment leaves it. *)
Definition update_field (atom_key vorbis_key frame_key : string)
  (a : Audio) (artists_list : list text) : option Audio :=
  let guarded key (write : option Audio) :=
    if setter_raises (kind a) key then None else write in
  match kind a with
  | MP4 => guarded atom_key (set_item atom_key [join (txt ";") artists_list] a)
  | FLAC | OggVorbis => guarded vorbis_key (set_item vorbis_key artists_list a)
  | MP3 | AIFF | WAVE =>
      guarded frame_key (set_frame frame_key (join (txt ";") artists_list) a)
  | OtherKind => None
  end.

Definition update_artist : Audio -> list text -> option Audio :=
  update_field key_ART key_artist key_TPE1.

Definition update_album_artist : Audio -> list text -> option Audio :=
  update_field key_aART key_albumartist key_TPE2.

(* The test "Check if any changes would be made" of update_music_file:
     native:  len(artists) > 1 or current != artists[0] if artists else False
     others:  ';'.join(artists) != current *)
Definition would_change (k : FormatKind) (current : text) (artists : list text) : bool :=
  if is_native k then
    match artists with
    | [] => false
    | first :: _ => (1 <? length artists) || negb (text_eqb current first)
    end
  else negb (text_eqb (join (txt ";") artists) current).

Definition new_format (k : FormatKind) (artists : list text) : Proposed :=
  if is_native k then AsList artists else AsText (join (txt ";") artists).

(* A field has a pending change: it is read, its value is not empty, and
   the test above says so. *)
Definition field_pending (k : FormatKind) (current : option text) : bool :=
  match current with
  | Some cur => truthy cur && would_change k cur (parse_artists cur)
  | None => false
  end.

(* One of the two blocks "Process artist field" / "Process album artist
   field".  inl is the early return of the block; inr carries the file
   object and the flag [changed]; both come with what the block printed
   (the lines that show a proposed value; the other messages of the script
   are not traced). *)
Definition process_field (field : string) (failure : Message)
  (update : Audio -> list text -> option Audio)
  (dry_run : bool) (current : option text) (audio : Audio) (changed : bool)
  : (Result + (Audio * bool)) * list Event :=
  match current with
  | Some cur =>
      if truthy cur then
        let artists := parse_artists cur in
        if would_change (kind audio) cur artists then
          let shown := [Print field cur (new_format (kind audio) artists)] in
          if negb dry_run then
            match update audio artists with
            | Some audio' => (inr (audio', true), shown)
            | None => (inl (mkResult false false failure), shown)
            end
          else (inr (audio, true), shown)
        else (inr (audio, changed), [])
      else (inr (audio, changed), [])
  | None => (inr (audio, changed), [])
  end.

Variable now : DateTime.

Definition update_music_file (file_path : string) (dry_run backup : bool)
  (d : Disk) : Run :=
  match d !! file_path with
  | None => mkRun (mkResult false false Error) d []          (* File() raises *)
  | Some (XmlFile _) | Some (OtherFile _) =>
      mkRun (mkResult true false UnsupportedFileFormat) d [] (* audio is None *)
  | Some (AudioFile audio) =>
      let current_artist := get_current_artist audio in
      let current_album_artist := get_current_album_artist audio in
      match process_field "Artist" FailedToUpdateArtist update_artist
              dry_run current_artist audio false with
      | (inl failed, shown1) => mkRun failed d shown1
      | (inr (audio1, changed1), shown1) =>
          match process_field "Album Artist" FailedToUpdateAlbumArtist
                  update_album_artist dry_run current_album_artist audio1 changed1 with
          | (inl failed, shown2) => mkRun failed d (shown1 ++ shown2)
          | (inr (audio2, changed2), shown2) =>
              if negb changed2 then
                mkRun (mkResult true false NoChangesNeeded) d (shown1 ++ shown2)
              else if negb dry_run then
                let bp := backup_path file_path now in
                let d1 := if backup then copy2 file_path bp d else d in
                let copied := if backup then [Copy2 file_path bp] else [] in
                mkRun (mkResult true true UpdatedSuccessfully)
                      (<[file_path := AudioFile audio2]> d1)
                      (shown1 ++ shown2 ++ copied ++ [Save file_path])
              else
                mkRun (mkResult true true WouldBeUpdated) d (shown1 ++ shown2)
          end
      end
  end.

(* ===================================================================== *)
(* 6. format-music-file-metadata.py: sidecar documents and the batch     *)
(* ===================================================================== *)

(* The body of the loops over root.findall('.//artist') and
   root.findall('.//albumartist'): the new text of one element and what is
   printed, when the element changes. *)
Definition normalise_text (field : string) (dry_run : bool) (x : option text)
  : option text * list Event :=
  match x with
  | Some s =>
      if truthy s then
        let original := strip s in
        let artists := parse_artists original in
        let formatted := format_artists_to_semicolon artists in
        if negb (text_eqb formatted original) then
          (if negb dry_run then Some formatted else x,
           [Print field original (AsText formatted)])
        else (x, [])
      else (x, [])
  | None => (x, [])
  end.

(* The loop over the elements named [name] below an element, in document
   order: the element as the loop leaves it and what was printed.  The
   source sets [changed] exactly where it prints such a line. *)
Fixpoint normalise_elem (name field : string) (dry_run : bool) (e : Element)
  : Element * list Event :=
  match e with
  | Elem t x cs =>
      let '(x', shown) :=
        if bool_decide (t = name) then normalise_text field dry_run x else (x, []) in
      let rest :=
        (fix go (l : list Element) : list Element * list Event :=
           match l with
           | [] => ([], [])
           | c :: l' =>
               let '(c', s1) := normalise_elem name field dry_run c in
               let '(l'', s2) := go l' in
               (c' :: l'', s1 ++ s2)
           end) cs in
      (Elem t x' (fst rest), shown ++ snd rest)
  end.

Definition normalise_list (name field : string) (dry_run : bool)
  (l : list Element) : list Element * list Event :=
  fold_right (fun c acc =>
                let '(c', s1) := normalise_elem name field dry_run c in
                (c' :: fst acc, s1 ++ snd acc)) ([], []) l.

(* The root itself is not among root.findall('.//name'). *)
Definition normalise_below (name field : string) (dry_run : bool) (root : Element)
  : Element * list Event :=
  match root with
  | Elem t x cs =>
      let '(cs', shown) := normalise_list name field dry_run cs in
      (Elem t x cs', shown)
  end.

Definition update_nfo_file (nfo_path : string) (dry_run backup : bool)
  (d : Disk) : Run :=
  match d !! nfo_path with
  | None => mkRun (mkResult false false Error) d []            (* open fails *)
  | Some (AudioFile _) | Some (OtherFile _) =>
      mkRun (mkResult false false XmlParseError) d []          (* ET.ParseError *)
  | Some (XmlFile root) =>
      let '(root1, shown1) := normalise_below "artist" "Artist" dry_run root in
      let '(root2, shown2) := normalise_below "albumartist" "Album Artist" dry_run root1 in
      let changed := negb (bool_decide (shown1 ++ shown2 = [])) in
      if changed && negb dry_run then
        let bp := backup_path nfo_path now in
        let d1 := if backup then copy2 nfo_path bp d else d in
        let copied := if backup then [Copy2 nfo_path bp] else [] in
        mkRun (mkResult true true UpdatedSuccessfully)
              (<[nfo_path := XmlFile (indent root2)]> d1)
              (shown1 ++ shown2 ++ copied ++ [Save nfo_path])
      else if changed && dry_run then
        mkRun (mkResult true true WouldBeUpdated) d (shown1 ++ shown2)
      else
        mkRun (mkResult true false NoChangesNeeded) d (shown1 ++ shown2)
  end.

(* stats = {'processed': 0, 'updated': 0, 'errors': 0, 'skipped': 0} *)
Record Stats := mkStats {
  processed : nat; updated : nat; errors : nat; skipped : nat
}.

(* The body of the two for loops of process_directory: one file. *)
Definition count (r : Result) (st : Stats) : Stats :=
  let st := mkStats (processed st + 1) (updated st) (errors st) (skipped st) in
  if success r && changed r then
    mkStats (processed st) (updated st + 1) (errors st) (skipped st)
  else if success r && negb (changed r) then
    mkStats (processed st) (updated st) (errors st) (skipped st + 1)
  else
    mkStats (processed st) (updated st) (errors st + 1) (skipped st).

(* A for loop of process_directory over the files it found: the counters,
   the disk and the trace are threaded through the calls. *)
Fixpoint process_files (update : string -> bool -> bool -> Disk -> Run)
  (files : list string) (dry_run backup : bool)
  (st : Stats) (d : Disk) (tr : list Event) : Stats * Disk * list Event :=
  match files with
  | [] => (st, d, tr)
  | f :: files' =>
      let r := update f dry_run backup d in
      process_files update files' dry_run backup
        (count (result r) st) (disk r) (tr ++ trace r)
  end.

(* process_directory, from the lists that the two rglob scans return: the
   NFO files are processed first, then the music files. *)
Definition process_directory (nfo_files music_files : list string)
  (dry_run backup : bool) (d : Disk) : Stats * Disk * list Event :=
  let '(st1, d1, tr1) :=
    process_files update_nfo_file nfo_files dry_run backup (mkStats 0 0 0 0) d [] in
  process_files update_music_file music_files dry_run backup st1 d1 tr1.

End Engine.

(* ===================================================================== *)
(* 7. format-metadata.py: artists and genres of sidecar documents        *)
(* ===================================================================== *)

Module Metadata.

Section Enrich.

(* The two calls to the MusicBrainz client: the identifier found for an
   album and an artist (None when the search finds nothing or fails), and
   the genres of an identifier (empty on every failure). *)
Variable search_album_on_musicbrainz : text -> text -> option text.
Variable get_genres_from_musicbrainz : text -> list text.

Variable now : DateTime.

(* The body of the loop over root.findall('.//artist'): here a text is
   rewritten only when it names more than one artist. *)
Definition normalise_text (dry_run : bool) (x : option text)
  : option text * list Event :=
  match x with
  | Some s =>
      if truthy s then
        let original := strip s in
        let artists := parse_artists original in
        if 1 <? length artists then
          let formatted := format_artists_to_semicolon artists in
          if negb (text_eqb formatted original) then
            (if negb dry_run then Some formatted else x,
             [Print "Artist" original (AsText formatted)])
          else (x, [])
        else (x, [])
      else (x, [])
  | None => (x, [])
  end.

Fixpoint normalise_elem (dry_run : bool) (e : Element) : Element * list Event :=
  match e with
  | Elem t x cs =>
      let '(x', shown) :=
        if bool_decide (t = "artist"%string) then normalise_text dry_run x else (x, []) in
      let rest :=
        (fix go (l : list Element) : list Element * list Event :=
           match l with
           | [] => ([], [])
           | c :: l' =>
               let '(c', s1) := normalise_elem dry_run c in
               let '(l'', s2) := go l' in
               (c' :: l'', s1 ++ s2)
           end) cs in
      (Elem t x' (fst rest), shown ++ snd rest)
  end.

Definition normalise_below (dry_run : bool) (root : Element) : Element * list Event :=
  match root with
  | Elem t x cs =>
      let rest :=
        fold_right (fun c acc =>
                      let '(c', s1) := normalise_elem dry_run c in
                      (c' :: fst acc, s1 ++ snd acc)) ([], []) cs in
      (Elem t x (fst rest), snd rest)
  end.

(* The text of the first element with that tag, stripped, when it is there
   and its text is not empty. *)
Definition stripped_text_of (name : string) (root : Element) : option text :=
  match find name root with
  | Some e => match etext e with
              | Some s => if truthy s then Some (strip s) else None
              | None => None
              end
  | None => None
  end.

Definition get_musicbrainz_id_from_nfo (root : Element) : option text :=
  match stripped_text_of "musicbrainzreleasegroupid" root with
  | Some i => Some i
  | None => stripped_text_of "musicbrainzalbumid" root
  end.

(* not g.text or not g.text.strip() *)
Definition empty_genre (g : Element) : bool := blank (etext g).

(* g.text and g.text.strip().lower() == 'music' *)
Definition generic_genre (g : Element) : bool :=
  match etext g with
  | Some s => truthy s && text_eqb (map lower (strip s)) (txt "music")
  | None => false
  end.

(* The chain of tests that sets needs_genre_fetch. *)
Definition needs_genre_fetch (force_genres : bool) (existing_genres : list Element)
  : bool :=
  if force_genres then true
  else if negb (0 <? length existing_genres) then true
  else if forallb empty_genre existing_genres then true
  else match existing_genres with
       | [g] => generic_genre g
       | _ => false
       end.

(* The identifier that is looked up: the one of the document, or else the
   one found from the texts of the first title and artist elements. *)
Definition find_mb_id (root : Element) : option text :=
  match get_musicbrainz_id_from_nfo root with
  | Some i => if truthy i then Some i else None
  | None => None
  end.

Definition resolve_mb_id (root : Element) : option text :=
  match find_mb_id root with
  | Some i => Some i
  | None =>
      match find "title" root, find "artist" root with
      | Some album_elem, Some artist_elem =>
          match etext album_elem, etext artist_elem with
          | Some album_name, Some artist_name =>
              if truthy album_name && truthy artist_name then
                match search_album_on_musicbrainz album_name artist_name with
                | Some i => if truthy i then Some i else None
                | None => None
                end
              else None
          | _, _ => None
          end
      | _, _ => None
      end
  end.

Definition is_genre (e : Element) : bool := bool_decide (tag e = "genre"%string).

(* for genre_elem in existing_genres: root.remove(genre_elem)
   root.remove takes an element out of the children of the root and raises
   ValueError for an element that is not one of them, which is the case of
   every genre element found deeper in the tree: None stands for the
   exception. *)
Definition remove_genres (root : Element) : option Element :=
  match root with
  | Elem t x cs =>
      if forallb (fun c => bool_decide (findall "genre" c = [])) cs
      then Some (Elem t x (List.filter (fun c => negb (is_genre c)) cs))
      else None
  end.

(* for genre in genres: ET.SubElement(root, 'genre').text = genre *)
Definition add_genres (genres : list text) (root : Element) : Element :=
  match root with
  | Elem t x cs => Elem t x (cs ++ map (fun g => Elem "genre" (Some g) []) genres)
  end.

(* The block "if fetch_genres:": None is an exception, Some the tree and
   whether it set [changed]. *)
Definition fetch_genres_step (force_genres : bool) (root : Element)
  : option (Element * bool) :=
  let existing_genres := findall "genre" root in
  if needs_genre_fetch force_genres existing_genres then
    match resolve_mb_id root with
    | Some mb_id =>
        let genres := get_genres_from_musicbrainz mb_id in
        match genres with
        | _ :: _ =>
            match remove_genres root with
            | Some root' => Some (add_genres genres root', true)
            | None => None
            end
        | [] => Some (root, false)
        end
    | None => Some (root, false)
    end
  else Some (root, false).

Definition update_nfo_file (nfo_path : string)
  (dry_run backup fetch_genres force_genres : bool) (d : Disk) : Run :=
  match d !! nfo_path with
  | None => mkRun (mkResult false false Error) d []
  | Some (AudioFile _) | Some (OtherFile _) =>
      mkRun (mkResult false false XmlParseError) d []
  | Some (XmlFile root) =>
      let '(root1, shown) := normalise_below dry_run root in
      let changed1 := negb (bool_decide (shown = [])) in
      match (if fetch_genres then fetch_genres_step force_genres root1
             else Some (root1, false)) with
      | None => mkRun (mkResult false false Error) d shown
      | Some (root2, changed2) =>
          let changed := changed1 || changed2 in
          if changed && negb dry_run then
            let bp := backup_path nfo_path now in
            let d1 := if backup then copy2 nfo_path bp d else d in
            let copied := if backup then [Copy2 nfo_path bp] else [] in
            mkRun (mkResult true true UpdatedSuccessfully)
                  (<[nfo_path := XmlFile (indent root2)]> d1)
                  (shown ++ copied ++ [Save nfo_path])
          else if changed && dry_run then
            mkRun (mkResult true true WouldBeUpdated) d shown
          else
            mkRun (mkResult true false NoChangesNeeded) d shown
      end
  end.

(* stats = {'processed': 0, 'updated': 0, 'errors': 0} *)
Record Stats := mkStats { processed : nat; updated : nat; errors : nat }.

(* The body of the for loop of process_directory: one file. *)
Definition count (r : Result) (st : Stats) : Stats :=
  let st := mkStats (processed st + 1) (updated st) (errors st) in
  if success r && changed r then
    mkStats (processed st) (updated st + 1) (errors st)
  else if negb (success r) then
    mkStats (processed st) (updated st) (errors st + 1)
  else st.

Fixpoint process_files (files : list string)
  (dry_run backup fetch_genres force_genres : bool)
  (st : Stats) (d : Disk) (tr : list Event) : Stats * Disk * list Event :=
  match files with
  | [] => (st, d, tr)
  | f :: files' =>
      let r := update_nfo_file f dry_run backup fetch_genres force_genres d in
      process_files files' dry_run backup fetch_genres force_genres
        (count (result r) st) (disk r) (tr ++ trace r)
  end.

(* process_directory, from the list that the rglob scan returns *)
Definition process_directory (nfo_files : list string)
  (dry_run backup fetch_genres force_genres : bool) (d : Disk)
  : Stats * Disk * list Event :=
  process_files nfo_files dry_run backup fetch_genres force_genres (mkStats 0 0 0) d [].

End Enrich.

End Metadata.

(* ===================================================================== *)
(* 7a. The genre trigger as the specification words it                   *)
(* ===================================================================== *)

(* With the force flag off: no genre field exists, or every genre field is
   empty, or the only genre is the literal text "Music". *)
Definition spec_needs_genre_fetch (existing_genres : list Element) : bool :=
  match existing_genres with
  | [] => true
  | [g] => Metadata.empty_genre g || bool_decide (etext g = Some (txt "Music"))
  | _ => forallb Metadata.empty_genre existing_genres
  end.

(* ===================================================================== *)
(* 7b. Vocabulary of the statements                                      *)
(* ===================================================================== *)

(* An event that touches no file *)
Definition is_print (e : Event) : Prop :=
  match e with Print _ _ _ => True | _ => False end.

Definition is_digit (c : ascii) : bool := (48 <=? code c) && (code c <=? 57).

(* YYYYMMDD_HHMMSS *)
Definition well_stamped (s : string) : bool :=
  match list_ascii_of_string s with
  | [y1; y2; y3; y4; m1; m2; d1; d2; u; h1; h2; n1; n2; s1; s2] =>
      forallb is_digit [y1; y2; y3; y4; m1; m2; d1; d2; h1; h2; n1; n2; s1; s2]
      && ascii_eqb u "_"
  | _ => false
  end.

(* A printed line that shows the normalised form of what it quotes *)
Definition shows_normalised (e : Event) : Prop :=
  exists field original,
    e = Print field original
          (AsText (format_artists_to_semicolon (parse_artists original))).

(* A text that the loops of update_nfo_file leave as it is *)
Definition stable (x : option text) : Prop :=
  match x with
  | Some s =>
      truthy s = true ->
      format_artists_to_semicolon (parse_artists (strip s)) = strip s
  | None => True
  end.

(* An element below which every element named [name] has a stable text *)
#[warnings="-register-all"]
Inductive settled (name : string) : Element -> Prop :=
  | settled_elem t x cs :
      (t = name -> stable x) -> Forall (settled name) cs ->
      settled name (Elem t x cs).

(* ===================================================================== *)
(* 7c. A small library, for the examples                                 *)
(* ===================================================================== *)

Module Sample.

Definition no_fault : FormatKind -> string -> bool := fun _ _ => false.


Definition time : DateTime := mkDateTime 2024 3 9 7 5 1.

Definition mp4 : Audio :=
  mkAudio MP4 (Some {[ key_ART := [txt "A feat. B"]; key_aART := [txt "C & D"] ]}).

Definition flac : Audio :=
  mkAudio FLAC (Some {[ key_artist := [txt "A feat. B"] ]}).

(* a Vorbis comment with two artist values *)
Definition flac_two_values : Audio :=
  mkAudio FLAC (Some {[ key_artist := [txt "A"; txt "B feat. C"] ]}).

Definition album : Element :=
  Elem "album" None
    [ Elem "title" (Some (txt "Songs")) [];
      Elem "artist" (Some (txt "A feat. B")) [];
      Elem "genre" (Some (txt "music")) [] ].

Definition library : Disk :=
  {[ "song.m4a"%string := AudioFile mp4;
     "song.flac"%string := AudioFile flac;
     "album.nfo"%string := XmlFile album;
     "broken.nfo"%string := OtherFile (txt "<album>") ]}.

(* a MusicBrainz client that knows one album *)
Definition search (album_name artist_name : text) : option text :=
  if text_eqb album_name (txt "Songs") then Some (txt "mbid-1") else None.

Definition genres (mb_id : text) : list text :=
  if text_eqb mb_id (txt "mbid-1") then [txt "Rock"; txt "Pop"] else [].

End Sample.

(* ===================================================================== *)
(* 7e. Vocabulary of the further properties                              *)
(* ===================================================================== *)

(* The values stored under a key, if any *)
Definition values (key : string) (a : Audio) : option (list text) :=
  match tags a with
  | Some m => m !! key
  | None => None
  end.






(* A document whose genre element lies below a child of the root *)
Definition nested_genre_album : Element :=
  Elem "album" None
    [ Elem "title" (Some (txt "Songs")) [];
      Elem "artist" (Some (txt "A feat. B")) [];
      Elem "info" None [ Elem "genre" (Some (txt "music")) [] ] ].

(* ===================================================================== *)
(* 7d. Proof steps shared by the classes of audio files                  *)
(* ===================================================================== *)

(* The cases of a Vorbis comment container and of an ID3 frame container,
   which the three resp. two classes share. *)
Ltac read_vorbis K :=
  let H := fresh "H" in
  unfold set_item; simpl; intros H;
  match goal with
  | l : list text, t : option (gmap string (list text)), vk : string |- _ =>
      assert (exists m, _ = mkAudio K
                (Some (match l with [] => delete vk m | _ :: _ => <[vk := l]> m end)))
        as [? ->] by (destruct t; injection H as <-; eauto);
      unfold has_key, first_value; simpl; destruct l; simpl;
      [ rewrite lookup_delete_eq; rewrite bool_decide_eq_false_2; [done|]; by intros [? ?]
      | rewrite lookup_insert_eq; by rewrite bool_decide_eq_true_2 by eauto ]
  end.

Ltac read_frame K :=
  let H := fresh "H" in
  unfold set_frame, add_tags, tags_truthy; simpl; intros H;
  match goal with
  | l : list text, t : option (gmap string (list text)), fk : string |- _ =>
      assert (exists m, _ = mkAudio K (Some (<[fk := [join (txt ";") l]]> m))) as [? ->]
        by (destruct t as [m|]; simpl in H;
            [ destruct (negb (bool_decide (m = ∅))); [|discriminate];
              simpl in H; injection H as <-; eauto
            | simpl in H; injection H as <-; eauto ]);
      unfold has_key, frame_str; simpl; rewrite lookup_insert_eq;
      rewrite bool_decide_eq_false_2 by apply insert_non_empty;
      by rewrite bool_decide_eq_true_2 by eauto
  end.

Ltac other_vorbis :=
  let H := fresh "H" in
  unfold set_item; simpl; intros H; unfold has_key, first_value;
  match goal with
  | l : list text, t : option (gmap string (list text)) |- _ =>
      destruct t as [?|]; injection H as <-; simpl; destruct l; simpl;
      rewrite ?lookup_delete_ne, ?lookup_insert_ne, ?lookup_empty by done;
      try done; by rewrite bool_decide_eq_false_2 by (by intros [? ?])
  end.

Ltac other_frame :=
  let H := fresh "H" in
  unfold set_frame, add_tags, tags_truthy, has_key, frame_str; simpl; intros H;
  match goal with
  | t : option (gmap string (list text)) |- _ =>
      destruct t as [m|]; simpl in H;
      [ destruct (bool_decide (m = ∅)) eqn:?; [discriminate|];
        simpl in H; injection H as <-; simpl;
        rewrite lookup_insert_ne by done;
        by rewrite bool_decide_eq_false_2 by apply insert_non_empty
      | simpl in H; injection H as <-; simpl;
        rewrite lookup_insert_ne, lookup_empty by done;
        rewrite bool_decide_eq_false_2 by apply insert_non_empty;
        by rewrite bool_decide_eq_false_2 by (by intros [? ?]) ]
  end.

(* ===================================================================== *)
(* 8. The matcher and re.sub                                             *)
(* ===================================================================== *)

Section ReFacts.

Import Re.

Lemma match_here_spaces_cons ci r x s :
  match_here ci (Spaces :: r) (x :: s) =
  if isspace x then
    match match_here ci (Spaces :: r) s with
    | Some t => Some t
    | None => match_here ci r s
    end
  else None.
Proof. reflexivity. Qed.

Lemma match_here_spaces_nil ci r : match_here ci (Spaces :: r) [] = None.
Proof. reflexivity. Qed.

(* What the matcher consumes is a word of the regex. *)
Lemma match_here_sound ci r : forall s t,
  match_here ci r s = Some t -> exists w, s = w ++ t /\ lang ci r w.
Proof.
  induction r as [|a r IH]; intros s t H.
  - injection H as <-. exists []. split; [reflexivity | constructor].
  - destruct a as [|c|c].
    + revert t H. induction s as [|x s IHs]; intros t H.
      * discriminate.
      * rewrite match_here_spaces_cons in H.
        destruct (isspace x) eqn:Hx; [|discriminate].
        destruct (match_here ci (Spaces :: r) s) as [t'|] eqn:Hs.
        -- injection H as <-. destruct (IHs _ eq_refl) as (w & -> & Hw).
           exists (x :: w). split; [reflexivity | by apply lang_spaces_more].
        -- destruct (IH _ _ H) as (w & -> & Hw).
           exists (x :: w). split; [reflexivity | by apply lang_spaces_one].
    + destruct s as [|x s]; simpl in H; [discriminate|].
      destruct (chr_match ci c x) eqn:Hc; [|discriminate].
      destruct (IH _ _ H) as (w & -> & Hw).
      exists (x :: w). split; [reflexivity | by apply lang_chr].
    + destruct s as [|x s]; simpl in H.
      * destruct (IH _ _ H) as (w & Hs & Hw).
        exists w. split; [done | by apply lang_opt_none].
      * destruct (chr_match ci c x) eqn:Hc.
        -- destruct (match_here ci r s) as [t'|] eqn:Hs.
           ++ injection H as <-. destruct (IH _ _ Hs) as (w & -> & Hw).
              exists (x :: w). split; [reflexivity | by apply lang_opt_some].
           ++ destruct (IH _ _ H) as (w & Hs' & Hw).
              exists w. split; [done | by apply lang_opt_none].
        -- destruct (IH _ _ H) as (w & Hs' & Hw).
           exists w. split; [done | by apply lang_opt_none].
Qed.

(* Where a word of the regex heads the input, the matcher finds a match. *)
Lemma match_here_complete ci r w :
  lang ci r w -> forall v, is_Some (match_here ci r (w ++ v)).
Proof.
  induction 1 as [|c x r w Hc _ IH|c x r w Hc _ IH|c r w _ IH
                  |x r w Hx _ IH|x r w Hx _ IH]; intros v.
  - by eexists.
  - simpl. rewrite Hc. apply IH.
  - simpl. rewrite Hc. destruct (match_here ci r (w ++ v)) eqn:E; [by eexists|].
    destruct (IH v) as [? ?]; congruence.
  - simpl. destruct (w ++ v) as [|y s] eqn:E; [rewrite <- E; apply IH|].
    destruct (chr_match ci c y).
    + destruct (match_here ci r s); [by eexists|]. rewrite <- E. apply IH.
    + rewrite <- E. apply IH.
  - change ((x :: w) ++ v) with (x :: (w ++ v)).
    rewrite match_here_spaces_cons, Hx.
    destruct (match_here ci (Spaces :: r) (w ++ v)); [by eexists | apply IH].
  - change ((x :: w) ++ v) with (x :: (w ++ v)).
    rewrite match_here_spaces_cons, Hx.
    destruct (IH v) as [t ->]. by eexists.
Qed.

Lemma lang_spaces_head ci r w :
  lang ci (Spaces :: r) w -> exists x w', w = x :: w' /\ isspace x = true.
Proof. inversion 1; subst; eauto. Qed.

Lemma lang_avoids ci r w x :
  lang ci r w ->
  isspace x = false ->
  forallb (fun c => negb (chr_match ci c x)) (chars r) = true ->
  ~ In x w.
Proof.
  induction 1 as [|c y r w Hc _ IH|c y r w Hc _ IH|c r w _ IH
                  |y r w Hy _ IH|y r w Hy _ IH]; intros Hx Hall; simpl in *.
  - tauto.
  - apply andb_true_iff in Hall as [Hn Hall].
    intros [->|Hin]; [rewrite Hc in Hn; discriminate | by apply IH].
  - apply andb_true_iff in Hall as [Hn Hall].
    intros [->|Hin]; [rewrite Hc in Hn; discriminate | by apply IH].
  - apply andb_true_iff in Hall as [Hn Hall]. by apply IH.
  - intros [->|Hin]; [congruence | by apply IH].
  - intros [->|Hin]; [congruence | by apply IH].
Qed.

Lemma occurs_avoids p w x :
  lang (ignorecase p) (body p) w -> avoids p x = true -> ~ In x w.
Proof.
  unfold avoids. intros Hw H. apply andb_true_iff in H as [Hs Hall].
  apply negb_true_iff in Hs. eapply lang_avoids; eauto.
Qed.


Lemma match_here_suffix ci r s t :
  match_here ci r s = Some t -> t = drop (length s - length t) s.
Proof.
  intros H. destruct (match_here_sound _ _ _ _ H) as (w & -> & _).
  rewrite length_app.
  replace (length w + length t - length t) with (length w) by lia.
  by rewrite drop_app_length.
Qed.

Lemma sub_from_skip p repl : forall s k,
  k <= length s -> sub_from p repl k s = sub_from p repl 0 (drop k s).
Proof.
  induction s as [|c s IH]; intros k Hk; simpl in Hk.
  - by replace k with 0 by lia.
  - destruct k as [|k]; [reflexivity|]. simpl. apply IH. lia.
Qed.

Variable p : pattern.
Variable repl : text.
Hypothesis p_leading : leading_spaces p.

Lemma lang_nonempty w : lang (ignorecase p) (body p) w -> w <> [].
Proof.
  destruct p_leading as [r Hr]. rewrite Hr. intros Hw.
  destruct (lang_spaces_head _ _ _ Hw) as (x & w' & -> & _). discriminate.
Qed.

Lemma match_here_shorter s t :
  match_here (ignorecase p) (body p) s = Some t -> length t < length s.
Proof.
  intros H. destruct (match_here_sound _ _ _ _ H) as (w & -> & Hw).
  apply lang_nonempty in Hw. destruct w; [done|]. rewrite length_app. simpl. lia.
Qed.

Lemma sub_nil : sub p repl [] = [].
Proof.
  unfold sub. simpl.
  destruct (match_here (ignorecase p) (body p) []) eqn:E; [|reflexivity].
  apply match_here_shorter in E. simpl in E. lia.
Qed.

Lemma sub_cons_none c s :
  match_here (ignorecase p) (body p) (c :: s) = None ->
  sub p repl (c :: s) = c :: sub p repl s.
Proof. unfold sub. simpl. by intros ->. Qed.

Lemma sub_cons_some c s t :
  match_here (ignorecase p) (body p) (c :: s) = Some t ->
  sub p repl (c :: s) = repl ++ sub p repl t.
Proof.
  intros H. unfold sub. simpl. rewrite H.
  pose proof (match_here_shorter _ _ H) as Hlt. simpl in Hlt.
  destruct (Nat.ltb_spec (length t) (S (length s))) as [_|?]; [|lia].
  f_equal. rewrite sub_from_skip by lia. f_equal.
  apply match_here_suffix in H. simpl in H.
  replace (S (length s) - length t) with (S (length s - length t)) in H by lia.
  simpl in H. congruence.
Qed.

(* No occurrence starts at the head when the matcher fails there. *)
Lemma occurs_cons_none c s :
  match_here (ignorecase p) (body p) (c :: s) = None ->
  occurs p (c :: s) -> occurs p s.
Proof.
  intros Hnone (u & w & v & Hs & Hw). destruct u as [|x u].
  - simpl in Hs. destruct (match_here_complete _ _ _ Hw v) as [t Ht].
    rewrite <- Hs in Ht. congruence.
  - injection Hs as -> ->. by exists u, w, v.
Qed.

(* The first match splits the input: nothing occurs before it, and re.sub
   goes on behind it. *)
Lemma sub_first : forall s,
  (~ occurs p s /\ sub p repl s = s)
  \/ (exists c w t, s = c ++ w ++ t /\ lang (ignorecase p) (body p) w
                    /\ ~ occurs p c /\ sub p repl s = c ++ repl ++ sub p repl t).
Proof.
  induction s as [|x s IH].
  - left. split; [|apply sub_nil].
    intros (u & w & v & Hs & Hw). apply lang_nonempty in Hw.
    destruct u; [destruct w|]; done.
  - destruct (match_here (ignorecase p) (body p) (x :: s)) as [t|] eqn:E.
    + right. destruct (match_here_sound _ _ _ _ E) as (w & Hs & Hw).
      exists [], w, t. split; [done|]. split; [done|]. split.
      * intros (u & w' & v & Hnil & Hw'). apply lang_nonempty in Hw'.
        destruct u; [destruct w'|]; done.
      * by apply sub_cons_some.
    + rewrite (sub_cons_none _ _ E). destruct IH as [[Hno Hid]|(c & w & t & Hs & Hw & Hno & Hsub)].
      * left. split; [|by rewrite Hid].
        intros Hocc. by apply Hno, (occurs_cons_none x).
      * right. exists (x :: c), w, t. split; [by rewrite Hs|]. split; [done|]. split.
        -- intros (u & w' & v & Hc & Hw'). destruct u as [|y u].
           ++ simpl in Hc. destruct (match_here_complete _ _ _ Hw' (v ++ w ++ t)) as [t' Ht'].
              rewrite app_assoc, <- Hc in Ht'.
              simpl in Ht'. rewrite <- Hs in Ht'. congruence.
           ++ injection Hc as -> ->. apply Hno. by exists u, w', v.
        -- by rewrite Hsub.
Qed.

Lemma sub_id s : ~ occurs p s -> sub p repl s = s.
Proof.
  intros Hno. destruct (sub_first s) as [[_ H]|(c & w & t & -> & Hw & _)]; [done|].
  exfalso. apply Hno. by exists c, w, t.
Qed.

(* Induction on the matches that re.sub replaces. *)
Lemma sub_rel (Q : text -> text -> Prop) :
  (forall s, ~ occurs p s -> Q s s) ->
  (forall c w t out,
      lang (ignorecase p) (body p) w -> ~ occurs p c -> Q t out ->
      Q (c ++ w ++ t) (c ++ repl ++ out)) ->
  forall s, Q s (sub p repl s).
Proof.
  intros Hbase Hstep s.
  induction s as [s IH] using (induction_ltof1 _ (@length ascii)).
  destruct (sub_first s) as [[Hno ->]|(c & w & t & -> & Hw & Hno & ->)].
  - by apply Hbase.
  - apply Hstep; [done..|]. apply IH. unfold ltof.
    apply lang_nonempty in Hw. destruct w; [done|].
    rewrite !length_app. simpl. lia.
Qed.

End ReFacts.

(* ===================================================================== *)
(* 9. Trimming and splitting                                             *)
(* ===================================================================== *)

Lemma lstrip_suffix s : exists l, s = l ++ lstrip s /\ all_space l.
Proof.
  induction s as [|c s (l & Hs & Hl)]; simpl.
  - exists []. split; [done | constructor].
  - destruct (isspace c) eqn:Hc.
    + exists (c :: l). split; [by rewrite Hs at 1 | by constructor].
    + exists []. split; [done | constructor].
Qed.

Lemma lstrip_head s c r : lstrip s = c :: r -> isspace c = false.
Proof.
  induction s as [|x s IH]; simpl; [done|].
  destruct (isspace x) eqn:Hx; [done|]. by intros [= <- _].
Qed.

Lemma lstrip_fix s c : isspace c = false -> lstrip (c :: s) = c :: s.
Proof. simpl. by intros ->. Qed.

Lemma lstrip_all_space l s : all_space l -> lstrip (l ++ s) = lstrip s.
Proof. induction 1 as [|c l Hc _ IH]; simpl; [done | by rewrite Hc]. Qed.

Lemma rstrip_prefix s : exists l, s = rstrip s ++ l /\ all_space l.
Proof.
  induction s as [|c s (l & Hs & Hl)]; simpl.
  - exists []. split; [done | constructor].
  - destruct (rstrip s) as [|y r] eqn:Hr.
    + destruct (isspace c) eqn:Hc.
      * exists (c :: l). simpl in Hs. split; [by rewrite <- Hs | by constructor].
      * exists l. simpl in *. split; [by rewrite <- Hs | done].
    + exists l. split; [simpl; by rewrite Hs at 1 | done].
Qed.

Lemma rstrip_cons_nonspace c s :
  isspace c = false -> rstrip (c :: s) = c :: rstrip s.
Proof. simpl. intros ->. by destruct (rstrip s). Qed.

Lemma rstrip_idem s : rstrip (rstrip s) = rstrip s.
Proof.
  induction s as [|c s IH]; simpl; [done|].
  destruct (rstrip s) as [|y r] eqn:Hr.
  - destruct (isspace c) eqn:Hc; simpl; [done | by rewrite Hc].
  - simpl in *. rewrite IH. done.
Qed.

Lemma strip_head s c r : strip s = c :: r -> isspace c = false.
Proof.
  unfold strip. destruct (lstrip s) as [|x t] eqn:Hl; simpl; [done|].
  pose proof (lstrip_head _ _ _ Hl) as Hx.
  change (match rstrip t with [] => if isspace x then [] else [x] | y :: r0 => x :: y :: r0 end)
    with (rstrip (x :: t)).
  rewrite rstrip_cons_nonspace by done. by intros [= <- _].
Qed.

Lemma strip_lstrip s : lstrip (strip s) = strip s.
Proof.
  destruct (strip s) as [|c r] eqn:E; [done|].
  apply lstrip_fix. by eapply strip_head.
Qed.

Lemma strip_rstrip s : rstrip (strip s) = strip s.
Proof. apply rstrip_idem. Qed.

Lemma strip_fix s : lstrip s = s -> rstrip s = s -> strip s = s.
Proof. unfold strip. by intros -> ->. Qed.

(* s = white space, strip s, white space *)
Lemma strip_decompose s :
  exists l r, s = l ++ strip s ++ r /\ all_space l /\ all_space r.
Proof.
  destruct (lstrip_suffix s) as (l & Hs & Hl).
  destruct (rstrip_prefix (lstrip s)) as (r & Hr & Hrs).
  exists l, r. unfold strip. by rewrite <- Hr.
Qed.

Lemma split_nonempty d s : split d s <> [].
Proof.
  destruct s as [|c s]; simpl; [done|].
  destruct (ascii_eqb c d); [done|]. by destruct (split d s).
Qed.

Lemma ascii_eqb_true a b : ascii_eqb a b = true <-> a = b.
Proof. apply Ascii.eqb_eq. Qed.

Lemma ascii_eqb_false a b : ascii_eqb a b = false <-> a <> b.
Proof. apply Ascii.eqb_neq. Qed.

Lemma split_head d : forall s h t,
  split d s = h :: t -> ~ In d h /\ exists b, s = h ++ b.
Proof.
  induction s as [|c s IH]; intros h t; simpl.
  - intros [= <- <-]. split; [by intros [] | by exists []].
  - destruct (ascii_eqb c d) eqn:Hc.
    + intros [= <- <-]. split; [by intros [] | by eexists].
    + apply ascii_eqb_false in Hc.
      destruct (split d s) as [|h' t'] eqn:Hs; [by destruct (split_nonempty d s)|].
      intros [= <- <-]. destruct (IH _ _ eq_refl) as (Hn & b & ->).
      split; [intros [->|?]; done | by exists b].
Qed.

Lemma split_tail d : forall s h t q,
  split d s = h :: t -> In q t ->
  ~ In d q /\ exists a b, s = (a ++ [d]) ++ q ++ b.
Proof.
  induction s as [|c s IH]; intros h t q; simpl.
  - intros [= <- <-] [].
  - destruct (ascii_eqb c d) eqn:Hc.
    + apply ascii_eqb_true in Hc as ->. intros [= <- <-] Hq.
      destruct (split d s) as [|h' t'] eqn:Hs; [done|].
      destruct Hq as [<-|Hq].
      * destruct (split_head _ _ _ _ Hs) as (Hn & b & ->).
        split; [done|]. by exists [], b.
      * destruct (IH _ _ _ eq_refl Hq) as (Hn & a & b & ->).
        split; [done|]. by exists (d :: a), b.
    + destruct (split d s) as [|h' t'] eqn:Hs; [by destruct (split_nonempty d s)|].
      intros [= <- <-] Hq. destruct (IH _ _ _ eq_refl Hq) as (Hn & a & b & ->).
      split; [done|]. by exists (c :: a), b.
Qed.

(* A piece of split lies between the start or a separator and holds none. *)
Lemma split_elem d s q :
  In q (split d s) ->
  ~ In d q /\ exists a b, s = a ++ q ++ b /\ (a = [] \/ exists a', a = a' ++ [d]).
Proof.
  destruct (split d s) as [|h t] eqn:Hs; [done|]. intros [<-|Hq].
  - destruct (split_head _ _ _ _ Hs) as (Hn & b & ->).
    split; [done|]. exists [], b. by split; [|left].
  - destruct (split_tail _ _ _ _ _ Hs Hq) as (Hn & a & b & ->).
    split; [done|]. exists (a ++ [d]), b. split; [done | right; by exists a].
Qed.

Lemma split_none d s : ~ In d s -> split d s = [s].
Proof.
  induction s as [|c s IH]; simpl; [done|]. intros Hn.
  destruct (ascii_eqb c d) eqn:Hc.
  - apply ascii_eqb_true in Hc. tauto.
  - rewrite IH by tauto. done.
Qed.

(* ===================================================================== *)
(* 10. Occurrences of a separator and the commas of a string             *)
(* ===================================================================== *)

Section Confined.

Import Re.

Variable p : pattern.
Hypothesis p_leading : leading_spaces p.
Hypothesis p_comma : avoids p comma = true.

Lemma comma_not_space : isspace comma = false.
Proof. reflexivity. Qed.

Lemma all_space_no_comma b : all_space b -> ~ In comma b.
Proof.
  intros Hb Hin. unfold all_space in Hb. rewrite Forall_forall in Hb.
  apply list_elem_of_In, Hb in Hin. by rewrite comma_not_space in Hin.
Qed.

Lemma all_space_app a b : all_space (a ++ b) <-> all_space a /\ all_space b.
Proof. apply Forall_app. Qed.

Lemma ends_with_comma_app (a l : text) a' :
  a ++ l = a' ++ [comma] -> l <> [] -> exists l', l = l' ++ [comma].
Proof.
  intros H Hl. destruct (exists_last Hl) as (l' & x & ->).
  rewrite app_assoc in H. apply app_inj_tail in H as [_ ->]. by exists l'.
Qed.

Lemma confined_none s : ~ occurs p s -> confined p s.
Proof. intros Hno u w v -> Hw. exfalso. apply Hno. by exists u, w, v. Qed.

Lemma confined_app_l x y : confined p (x ++ y) -> confined p x.
Proof.
  intros H u w v -> Hw. apply (H u w (v ++ y)); [|done].
  by rewrite <- !app_assoc.
Qed.

Lemma confined_app_r x y : confined p (x ++ y) -> confined p y.
Proof.
  intros H u w v -> Hw.
  destruct (H (x ++ u) w v) as (a & b & Hab & Hb & Ha); [by rewrite <- app_assoc | done |].
  apply app_eq_app in Hab as [l [[-> ->]|[-> ->]]].
  - apply all_space_app in Hb as [_ Hb].
    exists [], u. by split; [|split; [|left]].
  - destruct l as [|c l].
    + exists [], b. split; [done|]. by split; [|left].
    + exists (c :: l), b. split; [done|]. split; [done|]. right.
      destruct Ha as [Ha|[a' Ha]]; [by destruct x|].
      by eapply ends_with_comma_app.
Qed.

Lemma confined_comma x y :
  confined p x -> confined p y -> confined p (x ++ comma :: y).
Proof.
  intros Hx Hy u w v Hs Hw.
  pose proof (occurs_avoids p w comma Hw p_comma) as Hnc.
  pose proof (lang_nonempty p p_leading w Hw) as Hne.
  symmetry in Hs. apply app_eq_app in Hs as [l [[-> Hl]|[-> Hl]]].
  - (* the occurrence starts behind the comma *)
    destruct l as [|c l].
    + simpl in Hl. destruct w as [|c w]; [done|]. injection Hl as <- _.
      exfalso. apply Hnc. by left.
    + injection Hl as <- ->.
      destruct (Hy l w v eq_refl Hw) as (a & b & -> & Hb & Ha).
      exists (x ++ comma :: a), b. split; [by rewrite <- app_assoc|]. split; [done|].
      right. destruct Ha as [->|[a' ->]].
      * by exists x.
      * exists (x ++ comma :: a'). by rewrite <- app_assoc.
  - (* the occurrence starts in x *)
    apply app_eq_app in Hl as [l2 [[-> Hl2]|[-> Hl2]]].
    + destruct l2 as [|c l2].
      * apply (Hx u l []); [by rewrite !app_nil_r | by rewrite app_nil_r in Hw].
      * injection Hl2 as <- _. exfalso. apply Hnc, in_app_iff. right. by left.
    + by apply (Hx u w l2).
Qed.

Lemma confined_space c y :
  isspace c = true -> confined p y -> confined p (c :: y).
Proof.
  intros Hc Hy u w v Hs Hw. destruct u as [|c' u].
  - exists [], []. split; [done|]. split; [constructor | by left].
  - injection Hs as <- ->.
    destruct (Hy u w v eq_refl Hw) as (a & b & -> & Hb & Ha).
    destruct Ha as [->|[a' ->]].
    + exists [], (c :: b). split; [done|]. split; [by constructor | by left].
    + exists (c :: a' ++ [comma]), b. split; [done|]. split; [done|].
      right. by exists (c :: a').
Qed.

(* A trimmed piece of a confined string holds no occurrence. *)
Lemma confined_piece s q :
  confined p s -> In q (split comma s) -> ~ occurs p (strip q).
Proof.
  intros Hs Hq (u0 & w & v0 & Hstrip & Hw).
  destruct (split_elem _ _ _ Hq) as (Hnc & A & B & -> & HA).
  destruct (strip_decompose q) as (l1 & l2 & Hqd & Hl1 & Hl2).
  assert (Hu0 : all_space u0).
  { destruct (Hs (A ++ l1 ++ u0) w (v0 ++ l2 ++ B)) as (a & b & Hab & Hb & Ha).
    - rewrite Hqd at 1. rewrite Hstrip. by rewrite <- !app_assoc.
    - done.
    - apply app_eq_app in Hab as [l [[-> ->]|[-> Hl]]].
      + apply all_space_app in Hb as [_ Hb]. by apply all_space_app in Hb as [_ Hb].
      + destruct l as [|c l].
        * simpl in Hl. rewrite <- Hl in Hb. by apply all_space_app in Hb as [_ Hb].
        * exfalso. destruct Ha as [Ha|[a' Ha]]; [by destruct A|].
          destruct (ends_with_comma_app _ _ _ Ha) as [l' Hl']; [done|].
          apply Hnc. rewrite Hqd, Hstrip.
          assert (Hin : In comma (l1 ++ u0)).
          { rewrite Hl, Hl'. rewrite <- app_assoc. apply in_app_iff. right.
            apply in_app_iff. left. by left. }
          apply in_app_iff in Hin as [Hin|Hin].
          -- apply in_app_iff. by left.
          -- apply in_app_iff. right. apply in_app_iff. left. apply in_app_iff. by left. }
  destruct p_leading as [r Hr]. rewrite Hr in Hw.
  destruct (lang_spaces_head _ _ _ Hw) as (x & w' & -> & Hx).
  destruct u0 as [|y u0].
  - simpl in Hstrip. apply strip_head in Hstrip. congruence.
  - simpl in Hstrip. apply strip_head in Hstrip.
    inversion Hu0; subst. congruence.
Qed.

End Confined.

(* ===================================================================== *)
(* 11. What parse_artists returns                                        *)
(* ===================================================================== *)

Lemma search_occurs p s : Re.search p s = true <-> Re.occurs p s.
Proof.
  split.
  - induction s as [|c s IH]; simpl.
    + destruct (Re.match_here _ _ []) as [t|] eqn:E; [|done]. intros _.
      destruct (match_here_sound _ _ _ _ E) as (w & Hs & Hw). by exists [], w, t.
    + destruct (Re.match_here _ _ (c :: s)) as [t|] eqn:E.
      * intros _. destruct (match_here_sound _ _ _ _ E) as (w & Hs & Hw).
        by exists [], w, t.
      * intros H. destruct (IH H) as (u & w & v & -> & Hw). by exists (c :: u), w, v.
  - intros (u & w & v & -> & Hw). induction u as [|c u IH].
    + destruct (match_here_complete _ _ _ Hw v) as [t Ht].
      simpl. destruct v, w; simpl in *; by rewrite Ht.
    + simpl. by destruct (Re.match_here _ _ (c :: u ++ w ++ v)).
Qed.

Lemma not_occurs p s : Re.search p s = false -> ~ Re.occurs p s.
Proof. intros H Ho. apply search_occurs in Ho. congruence. Qed.

Lemma rewrites_leading p : In p rewrites -> Re.leading_spaces p.
Proof.
  intros H. repeat (destruct H as [<-|H]; [by eexists|]). destruct H.
Qed.

Lemma rewrites_avoid_comma p : In p rewrites -> Re.avoids p comma = true.
Proof.
  intros H. repeat (destruct H as [<-|H]; [reflexivity|]). destruct H.
Qed.

Lemma rewrites_avoid_semicolon p : In p rewrites -> Re.avoids p ";"%char = true.
Proof.
  intros H. repeat (destruct H as [<-|H]; [reflexivity|]). destruct H.
Qed.

(* re.sub(p, ', ', s) confines the occurrences of p. *)
Lemma sub_confines p s :
  Re.leading_spaces p -> Re.avoids p comma = true ->
  confined p (Re.sub p (txt ", ") s).
Proof.
  intros Hl Hc. apply (sub_rel p (txt ", ") Hl (fun _ out => confined p out)).
  - apply confined_none.
  - intros c w t out Hw Hno Hout. change (txt ", " ++ out) with (comma :: " "%char :: out).
    apply confined_comma; [done.. | by apply confined_none |].
    by apply confined_space.
Qed.

(* re.sub(k, ', ', s) keeps the occurrences of p confined. *)
Lemma sub_keeps_confined k p s :
  Re.leading_spaces k -> Re.leading_spaces p -> Re.avoids p comma = true ->
  confined p s -> confined p (Re.sub k (txt ", ") s).
Proof.
  intros Hk Hl Hc.
  apply (sub_rel k (txt ", ") Hk (fun s out => confined p s -> confined p out)).
  - done.
  - intros c w t out Hw Hno IH Hs.
    change (txt ", " ++ out) with (comma :: " "%char :: out).
    apply confined_comma; [done..| |].
    + by eapply confined_app_l.
    + apply confined_space; [done|]. apply IH.
      eapply confined_app_r, confined_app_r. exact Hs.
Qed.

Lemma fold_sub_confined : forall (l pre : list Re.pattern) s,
  (forall p, In p (pre ++ l) -> Re.leading_spaces p /\ Re.avoids p comma = true) ->
  (forall p, In p pre -> confined p s) ->
  forall p, In p (pre ++ l) ->
  confined p (fold_left (fun result p => Re.sub p (txt ", ") result) l s).
Proof.
  induction l as [|k l IH]; intros pre s Hwf Hpre p Hp; simpl.
  - rewrite app_nil_r in Hp. by apply Hpre.
  - apply (IH (pre ++ [k])).
    + intros q Hq. apply Hwf. by rewrite <- app_assoc in Hq.
    + intros q Hq. apply in_app_iff in Hq as [Hq|[<-|[]]].
      * destruct (Hwf k) as [Hk _]; [apply in_app_iff; right; by left|].
        destruct (Hwf q) as [Hq1 Hq2]; [apply in_app_iff; by left|].
        apply sub_keeps_confined; auto.
      * destruct (Hwf k) as [Hk1 Hk2]; [apply in_app_iff; right; by left|].
        by apply sub_confines.
    + by rewrite <- app_assoc.
Qed.

Lemma rewrite_separators_confined s p :
  In p rewrites -> confined p (rewrite_separators s).
Proof.
  intros Hp. apply (fold_sub_confined rewrites [] s).
  - intros q Hq. split; [by apply rewrites_leading | by apply rewrites_avoid_comma].
  - intros q [].
  - done.
Qed.

Lemma fold_sub_id s : forall l : list Re.pattern,
  (forall p, In p l -> Re.leading_spaces p /\ ~ Re.occurs p s) ->
  fold_left (fun result p => Re.sub p (txt ", ") result) l s = s.
Proof.
  induction l as [|k l IH]; intros Hno; simpl; [done|].
  destruct (Hno k) as [Hk1 Hk2]; [by left|].
  rewrite sub_id by done. apply IH. intros q Hq. apply Hno. by right.
Qed.

Lemma rewrite_separators_id s :
  (forall p, In p rewrites -> ~ Re.occurs p s) -> rewrite_separators s = s.
Proof.
  intros Hno. apply fold_sub_id. intros q Hq.
  split; [by apply rewrites_leading | by apply Hno].
Qed.

(* Every name that parse_artists returns is clean. *)
Lemma parse_artists_clean s a : In a (parse_artists s) -> clean_name a.
Proof.
  unfold parse_artists. destruct (negb (truthy s)); [intros []|].
  intros Ha. apply filter_In in Ha as [Ha Hne].
  apply in_map_iff in Ha as (q & <- & Hq).
  destruct (split_elem _ _ _ Hq) as (Hnc & _).
  destruct (strip_decompose q) as (l & r & Hqd & _ & _).
  split.
  - by destruct (strip q).
  - apply strip_lstrip.
  - apply strip_rstrip.
  - intros Hin. apply Hnc. rewrite Hqd. apply in_app_iff. right.
    apply in_app_iff. by left.
  - intros p Hp. eapply confined_piece; [by apply rewrites_leading | | exact Hq].
    by apply rewrite_separators_confined.
Qed.

(* A clean name is parsed to itself. *)
Lemma parse_artists_of_clean a : clean_name a -> parse_artists a = [a].
Proof.
  intros [Hne Hl Hr Hc Hs]. unfold parse_artists.
  destruct a as [|c a]; [done|]. simpl negb. cbv iota.
  rewrite rewrite_separators_id by done.
  rewrite split_none by done. simpl map. rewrite strip_fix by done. reflexivity.
Qed.

Lemma occurs_around p x y c :
  Re.leading_spaces p -> Re.avoids p c = true ->
  ~ Re.occurs p x -> ~ Re.occurs p y -> ~ Re.occurs p (x ++ c :: y).
Proof.
  intros Hl Hc Hx Hy (u & w & v & Hs & Hw).
  pose proof (occurs_avoids p w c Hw Hc) as Hnc.
  pose proof (lang_nonempty p Hl w Hw) as Hne.
  symmetry in Hs. apply app_eq_app in Hs as [l [[-> Hl']|[-> Hl']]].
  - destruct l as [|c' l].
    + simpl in Hl'. destruct w as [|c' w]; [done|]. injection Hl' as <- _.
      apply Hnc. by left.
    + injection Hl' as <- ->. apply Hy. by exists l, w, v.
  - apply app_eq_app in Hl' as [l2 [[-> Hl2]|[-> Hl2]]].
    + destruct l2 as [|c' l2].
      * apply Hx. exists u, l, []. rewrite app_nil_r in Hw. by rewrite app_nil_r.
      * injection Hl2 as <- _. apply Hnc, in_app_iff. right. by left.
    + apply Hx. by exists u, w, l2.
Qed.

Lemma rstrip_app_fix x y : rstrip y = y -> y <> [] -> rstrip (x ++ y) = x ++ y.
Proof.
  intros Hy Hne. induction x as [|c x IH]; simpl; [done|].
  rewrite IH. destruct (x ++ y) eqn:E; [|done].
  by apply app_eq_nil in E as [_ ->].
Qed.

Lemma lstrip_app_fix x y : lstrip x = x -> x <> [] -> lstrip (x ++ y) = x ++ y.
Proof.
  intros Hx Hne. destruct x as [|c x]; [done|].
  apply lstrip_head in Hx. simpl. by rewrite Hx.
Qed.

(* ';'.join of clean names is a clean name. *)
Lemma join_clean : forall l,
  l <> [] -> Forall clean_name l -> clean_name (join (txt ";") l).
Proof.
  induction l as [|a l IH]; [done|]. intros _ Hall.
  inversion Hall as [|? ? Ha Hl]; subst. destruct l as [|b l]; [done|].
  specialize (IH ltac:(done) Hl).
  change (join (txt ";") (a :: b :: l)) with (a ++ ";"%char :: join (txt ";") (b :: l)).
  destruct Ha as [Hne Hls Hrs Hc Hs]. destruct IH as [Hne' Hls' Hrs' Hc' Hs'].
  split.
  - by destruct a.
  - by apply lstrip_app_fix.
  - replace (a ++ ";"%char :: join (txt ";") (b :: l))
      with ((a ++ [";"%char]) ++ join (txt ";") (b :: l)) by (by rewrite <- app_assoc).
    by apply rstrip_app_fix.
  - intros Hin. apply in_app_iff in Hin as [Hin|[Hin|Hin]]; [done | discriminate | done].
  - intros p Hp. apply occurs_around; auto using rewrites_leading, rewrites_avoid_semicolon.
Qed.

Lemma parse_artists_all_clean s : Forall clean_name (parse_artists s).
Proof. apply List.Forall_forall. intros a. apply parse_artists_clean. Qed.

(* Parsing the joined names gives the joined names back. *)
Lemma parse_join_parse s :
  parse_artists s <> [] ->
  parse_artists (join (txt ";") (parse_artists s)) = [join (txt ";") (parse_artists s)].
Proof.
  intros Hne. apply parse_artists_of_clean, join_clean; [done|].
  apply parse_artists_all_clean.
Qed.

Lemma join_parse_idempotent s :
  join (txt ";") (parse_artists (join (txt ";") (parse_artists s)))
  = join (txt ";") (parse_artists s).
Proof.
  destruct (parse_artists s) as [|a l] eqn:E; [reflexivity|].
  rewrite <- E. rewrite parse_join_parse; [done|]. by rewrite E.
Qed.

Lemma no_separator_parse s :
  (forall p, In p rewrites -> ~ Re.occurs p s) ->
  ~ In comma s ->
  parse_artists s = if truthy (strip s) then [strip s] else [].
Proof.
  intros Hno Hc. unfold parse_artists. destruct s as [|c s]; [reflexivity|].
  simpl negb. cbv iota. rewrite rewrite_separators_id by done.
  rewrite split_none by done. simpl. by destruct (strip (c :: s)).
Qed.

(* Deciding the absence of every separator by running the matcher. *)
Lemma no_separator_by_search s :
  forallb (fun p => negb (Re.search p s)) rewrites = true ->
  forall p, In p rewrites -> ~ Re.occurs p s.
Proof.
  intros H p Hp. rewrite forallb_forall in H. specialize (H p Hp).
  apply not_occurs. by apply negb_true_iff.
Qed.

(* ===================================================================== *)
(* 12. The parser                                                        *)
(* ===================================================================== *)

Example parse_artists_empty : parse_artists [] = [].
Proof. reflexivity. Qed.

Example parse_artists_solo : parse_artists (txt "Solo Artist") = [txt "Solo Artist"].
Proof. reflexivity. Qed.

Example parse_artists_any_case :
  parse_artists (txt "A FEAT. B Ft C featuring D") = [txt "A"; txt "B"; txt "C"; txt "D"].
Proof. reflexivity. Qed.

(* Two tokens that share their white space: re.sub replaces the first and
   resumes behind the space it consumed. *)
Example parse_artists_shared_space :
  parse_artists (txt "A and and B") = [txt "A"; txt "and B"].
Proof. reflexivity. Qed.

Example format_artists_to_semicolon_feat :
  format_artists_to_semicolon (parse_artists (txt "Artist A feat. Artist B"))
  = txt "Artist A;Artist B".
Proof. reflexivity. Qed.



(** C4, as stated, fails on a comma: "A, B" is not empty and holds no join
    token, and it is parsed to two names, not to the list of itself; and a
    string of white space is parsed to no name at all. *)
Lemma comma_without_separator_is_split :
  txt "A, B" <> []
  /\ (forall p, In p rewrites -> ~ Re.occurs p (txt "A, B"))
  /\ parse_artists (txt "A, B") <> [strip (txt "A, B")]
  /\ parse_artists (txt " ") <> [strip (txt " ")].
Proof.
  split; [done|]. split; [by apply no_separator_by_search | done].
Qed.

(** C4, amended: a credit string that holds no white-space-surrounded join
    token and no comma, and that is more than white space, is parsed to the
    list of its trimmed self. *)
Theorem no_separator_single_name (s : text) :
  (forall p, In p rewrites -> ~ Re.occurs p s) ->
  ~ In comma s ->
  strip s <> [] ->
  parse_artists s = [strip s].
Proof.
  intros Hno Hc Hne. rewrite no_separator_parse by done.
  by destruct (strip s).
Qed.

Lemma no_separator_single_name_witness :
  parse_artists (txt " The Band of Horses ") = [strip (txt " The Band of Horses ")].
Proof.
  apply no_separator_single_name.
  - apply no_separator_by_search. reflexivity.
  - vm_compute. intuition discriminate.
  - vm_compute. discriminate.
Defined.

(* ===================================================================== *)
(* 13. Tags: what is read back after a write                             *)
(* ===================================================================== *)

Lemma text_eqb_refl a : text_eqb a a = true.
Proof. unfold text_eqb. by apply bool_decide_eq_true. Qed.

Lemma text_eqb_eq a b : text_eqb a b = true <-> a = b.
Proof. unfold text_eqb. apply bool_decide_eq_true. Qed.


Section Tags.

Variable setter_raises : FormatKind -> string -> bool.
Variables ak vk fk : string.

Lemma update_field_kind a l a' :
  update_field setter_raises ak vk fk a l = Some a' -> kind a' = kind a.
Proof.
  unfold update_field, set_item, set_frame, add_tags.
  destruct a as [k t]; simpl.
  destruct k; simpl;
    repeat match goal with
           | |- context [if ?b then _ else _] => destruct b
           | |- context [match ?t with Some _ => _ | None => _ end] => destruct t
           end; simpl; try discriminate; by intros [= <-].
Qed.

(* The value that a later read of the same field returns. *)
Lemma update_field_read a l a' :
  update_field setter_raises ak vk fk a l = Some a' ->
  get_current ak vk fk a' =
  if is_native (kind a) then head l else Some (join (txt ";") l).
Proof.
  unfold update_field, get_current. destruct a as [k t]. simpl.
  destruct k; simpl; try discriminate;
    destruct (setter_raises _ _); try discriminate.
  - (* MP4 *)
    unfold set_item. simpl. intros H.
    assert (exists m, a' = mkAudio MP4 (Some (<[ak := [join (txt ";") l]]> m))) as [m ->]
      by (destruct t; injection H as <-; eauto).
    unfold has_key, first_value. simpl. rewrite lookup_insert_eq.
    by rewrite bool_decide_eq_true_2 by eauto.
  - read_vorbis FLAC.
  - read_vorbis OggVorbis.
  - read_frame MP3.
  - read_frame AIFF.
  - read_frame WAVE.
Qed.

(* Reading a field whose keys are not the ones written. *)
Lemma update_field_frame ak' vk' fk' a l a' :
  ak <> ak' -> vk <> vk' -> fk <> fk' ->
  update_field setter_raises ak vk fk a l = Some a' ->
  get_current ak' vk' fk' a' = get_current ak' vk' fk' a.
Proof.
  intros Ha Hv Hf. unfold update_field, get_current. destruct a as [k t]. simpl.
  destruct k; simpl; try discriminate;
    destruct (setter_raises _ _); try discriminate.
  - unfold set_item. simpl. intros H. unfold has_key, first_value.
    destruct t as [m|]; injection H as <-; simpl.
    + by rewrite lookup_insert_ne.
    + rewrite lookup_insert_ne, lookup_empty by done.
      by rewrite bool_decide_eq_false_2 by (by intros [? ?]).
  - other_vorbis.
  - other_vorbis.
  - other_frame.
  - other_frame.
  - other_frame.
Qed.

End Tags.

(* ===================================================================== *)
(* 14. The engine on one field                                           *)
(* ===================================================================== *)

(* What was just written is not pending any more. *)
Lemma written_not_pending k s :
  field_pending k
    (if is_native k then head (parse_artists s)
     else Some (join (txt ";") (parse_artists s))) = false.
Proof.
  unfold field_pending, would_change. destruct (is_native k) eqn:Hk.
  - destruct (parse_artists s) as [|v l] eqn:E; [done|]. simpl.
    assert (Hv : clean_name v) by (apply (parse_artists_clean s); rewrite E; by left).
    rewrite (parse_artists_of_clean _ Hv). simpl. rewrite text_eqb_refl.
    apply andb_false_r.
  - destruct (parse_artists s) as [|v l] eqn:E; [done|].
    rewrite <- E. rewrite parse_join_parse by (by rewrite E).
    simpl. rewrite text_eqb_refl. apply andb_false_r.
Qed.

Section Field.

Variable setter_raises : FormatKind -> string -> bool.
Variables ak vk fk : string.
Variable field : string.
Variable failure : Message.

Local Abbreviation update := (update_field setter_raises ak vk fk).
Local Abbreviation current := (get_current ak vk fk).

Lemma process_field_not_pending dry_run cur a changed :
  field_pending (kind a) cur = false ->
  process_field field failure update dry_run cur a changed = (inr (a, changed), []).
Proof.
  unfold field_pending, process_field. destruct cur as [cur|]; [|done].
  destruct (truthy cur); [|done]. simpl. by intros ->.
Qed.

Lemma process_field_dry_run cur a changed :
  process_field field failure update true cur a changed =
  if field_pending (kind a) cur then
    (inr (a, true),
     [Print field (default [] cur) (new_format (kind a) (parse_artists (default [] cur)))])
  else (inr (a, changed), []).
Proof.
  unfold field_pending, process_field. destruct cur as [cur|]; [|done].
  destruct (truthy cur); [|done]. simpl. by destruct (would_change _ _ _).
Qed.

(* After its block, a field has no pending change, and the other field
   reads as before. *)
Lemma process_field_settles a changed a1 changed1 shown :
  process_field field failure update false (current a) a changed
  = (inr (a1, changed1), shown) ->
  kind a1 = kind a
  /\ field_pending (kind a1) (current a1) = false
  /\ (forall ak' vk' fk', ak <> ak' -> vk <> vk' -> fk <> fk' ->
        get_current ak' vk' fk' a1 = get_current ak' vk' fk' a).
Proof.
  unfold process_field.
  destruct (current a) as [cur|] eqn:Hcur; simpl;
    [destruct (truthy cur) eqn:Ht; simpl;
     [destruct (would_change (kind a) cur (parse_artists cur)) eqn:Hw; simpl|]|].
  - destruct (update a (parse_artists cur)) as [a'|] eqn:Hu; [|discriminate].
    intros [= <- <- <-].
    pose proof (update_field_kind _ _ _ _ _ _ _ Hu) as Hk.
    split; [done|]. split.
    + rewrite (update_field_read _ _ _ _ _ _ _ Hu), Hk. apply written_not_pending.
    + intros ak' vk' fk' H1 H2 H3. by eapply update_field_frame.
  - intros [= <- <- <-]. split; [done|]. split; [|done].
    rewrite Hcur. unfold field_pending. by rewrite Ht, Hw.
  - intros [= <- <- <-]. split; [done|]. split; [|done].
    rewrite Hcur. unfold field_pending. by rewrite Ht.
  - intros [= <- <- <-]. split; [done|]. split; [|done]. by rewrite Hcur.
Qed.

(* A failed write gives the early return and nothing else. *)
Lemma process_field_fails dry_run cur a changed failed shown :
  process_field field failure update dry_run cur a changed = (inl failed, shown) ->
  failed = mkResult false false failure /\ dry_run = false
  /\ shown = [Print field (default [] cur) (new_format (kind a) (parse_artists (default [] cur)))].
Proof.
  unfold process_field. destruct cur as [cur|]; [|discriminate].
  destruct (truthy cur); [|discriminate].
  destruct (would_change _ _ _); [|discriminate].
  destruct dry_run; simpl; [discriminate|].
  destruct (update a (parse_artists cur)); [discriminate|]. by intros [= <- <-].
Qed.

(* The block prints proposals only. *)
Lemma process_field_prints dry_run cur a changed out shown e :
  process_field field failure update dry_run cur a changed = (out, shown) ->
  In e shown -> exists c n, e = Print field c n.
Proof.
  unfold process_field. intros H He.
  assert (shown = [] \/ exists c n, shown = [Print field c n]) as [->|(c & n & ->)].
  { destruct cur as [cur|]; [|injection H as <- <-; by left].
    destruct (truthy cur); [|injection H as <- <-; by left].
    destruct (would_change _ _ _); [|injection H as <- <-; by left].
    destruct (negb dry_run); [destruct (update _ _)|]; injection H as <- <-; eauto. }
  - destruct He.
  - destruct He as [<-|[]]. eauto.
Qed.

End Field.

(* ===================================================================== *)
(* 15. The engine on one file                                            *)
(* ===================================================================== *)

Lemma keys_artist_album :
  key_ART <> key_aART /\ key_artist <> key_albumartist /\ key_TPE1 <> key_TPE2.
Proof. by repeat split. Qed.

Lemma keys_album_artist :
  key_aART <> key_ART /\ key_albumartist <> key_artist /\ key_TPE2 <> key_TPE1.
Proof. by repeat split. Qed.

Section OneFile.

Variable setter_raises : FormatKind -> string -> bool.
Variable now : DateTime.

Local Abbreviation run := (update_music_file setter_raises now).

(* An audio file on which no field is pending is left alone. *)
Lemma update_music_file_settled path dry_run backup d a :
  d !! path = Some (AudioFile a) ->
  field_pending (kind a) (get_current_artist a) = false ->
  field_pending (kind a) (get_current_album_artist a) = false ->
  run path dry_run backup d = mkRun (mkResult true false NoChangesNeeded) d [].
Proof.
  intros Hd H1 H2. unfold update_music_file. rewrite Hd.
  unfold update_artist, update_album_artist.
  rewrite process_field_not_pending by done.
  rewrite process_field_not_pending by done. reflexivity.
Qed.

(* What a run that wrote the file leaves on the disk. *)
Lemma update_music_file_updated path backup d r :
  run path false backup d = r ->
  result r = mkResult true true UpdatedSuccessfully ->
  exists a2,
    disk r = <[path := AudioFile a2]>
               (if backup then copy2 path (backup_path path now) d else d)
    /\ field_pending (kind a2) (get_current_artist a2) = false
    /\ field_pending (kind a2) (get_current_album_artist a2) = false.
Proof.
  unfold update_music_file.
  destruct (d !! path) as [[a| |]|] eqn:Hd; try (intros <-; discriminate).
  destruct (process_field "Artist" _ _ _ _ _ _) as [[failed|[a1 changed1]] shown1] eqn:E1.
  { apply process_field_fails in E1 as (-> & _). intros <-. discriminate. }
  destruct (process_field "Album Artist" _ _ _ _ _ _) as [[failed|[a2 changed2]] shown2] eqn:E2.
  { apply process_field_fails in E2 as (-> & _). intros <-. discriminate. }
  destruct changed2; simpl; [|intros <-; discriminate].
  intros <- _. simpl. exists a2. split; [done|].
  destruct keys_artist_album as (K1 & K2 & K3).
  destruct keys_album_artist as (K4 & K5 & K6).
  apply process_field_settles in E1 as (Hk1 & Hp1 & Hf1).
  assert (Haa : get_current_album_artist a = get_current_album_artist a1)
    by (symmetry; by apply Hf1).
  rewrite Haa in E2.
  apply process_field_settles in E2 as (Hk2 & Hp2 & Hf2).
  split; [|done].
  unfold get_current_artist. rewrite (Hf2 key_ART key_artist key_TPE1) by done.
  by rewrite Hk2.
Qed.

(* Inspect after Apply: the second run finds nothing to do. *)
Lemma update_music_file_twice path backup backup' dry_run d r :
  run path false backup d = r ->
  result r = mkResult true true UpdatedSuccessfully ->
  run path dry_run backup' (disk r)
  = mkRun (mkResult true false NoChangesNeeded) (disk r) [].
Proof.
  intros Hr Hres.
  destruct (update_music_file_updated _ _ _ _ Hr Hres) as (a2 & Hd & H1 & H2).
  apply (update_music_file_settled _ _ _ _ a2); [|done..].
  rewrite Hd. apply lookup_insert_eq.
Qed.

End OneFile.

(* ===================================================================== *)
(* 16. Backups                                                           *)
(* ===================================================================== *)

Lemma is_digit_digit n : is_digit (digit n) = true.
Proof.
  unfold digit. assert (H : n mod 10 < 10) by (apply Nat.mod_upper_bound; lia).
  destruct (n mod 10) as [|[|[|[|[|[|[|[|[|[|k]]]]]]]]]]; try reflexivity. lia.
Qed.

Lemma strftime_well_stamped t : well_stamped (strftime t) = true.
Proof.
  unfold well_stamped, strftime, pad4, pad2.
  cbv [String.append list_ascii_of_string forallb]. cbv beta iota.
  rewrite !is_digit_digit. reflexivity.
Qed.

Lemma append_length (a b : string) :
  String.length (a ++ b)%string = String.length a + String.length b.
Proof. induction a as [|c a IH]; simpl; [done | by rewrite IH]. Qed.

Lemma backup_path_fresh path t : backup_path path t <> path.
Proof.
  unfold backup_path. intros H. apply (f_equal String.length) in H.
  rewrite append_length in H. simpl in H. lia.
Qed.

Lemma copy2_lookup path bp (d : Disk) :
  is_Some (d !! path) -> copy2 path bp d !! bp = d !! path.
Proof.
  intros [c Hc]. unfold copy2. rewrite Hc. by rewrite lookup_insert_eq.
Qed.

Lemma Forall_is_print_app (l1 l2 : list Event) :
  Forall is_print l1 -> Forall is_print l2 -> Forall is_print (l1 ++ l2).
Proof. intros. by apply Forall_app. Qed.

Lemma prints_are_prints field l :
  (forall e, In e l -> exists c n, e = Print field c n) -> Forall is_print l.
Proof.
  intros H. apply List.Forall_forall. intros e He.
  destruct (H e He) as (c & n & ->). exact I.
Qed.

(* ===================================================================== *)
(* 17. Sidecar documents                                                 *)
(* ===================================================================== *)

Lemma Element_induction (P : Element -> Prop) :
  (forall t x cs, Forall P cs -> P (Elem t x cs)) -> forall e, P e.
Proof.
  intros H. fix IH 1. intros [t x cs]. apply H.
  induction cs as [|c cs IHcs]; constructor; [apply IH | exact IHcs].
Qed.

Lemma normalise_elem_eq name field dry_run t x cs :
  normalise_elem name field dry_run (Elem t x cs) =
  let '(x', shown) :=
    if bool_decide (t = name) then normalise_text field dry_run x else (x, []) in
  let rest := normalise_list name field dry_run cs in
  (Elem t x' (fst rest), shown ++ snd rest).
Proof.
  simpl. destruct (if bool_decide (t = name) then _ else _) as [x' shown].
  f_equal.
  - f_equal. induction cs as [|c cs IH]; simpl; [done|].
    destruct (normalise_elem name field dry_run c) as [c' s1]. simpl in *.
    destruct ((fix go (l : list Element) := _) cs) as [l'' s2]. simpl in *. by rewrite IH.
  - f_equal. induction cs as [|c cs IH]; simpl; [done|].
    destruct (normalise_elem name field dry_run c) as [c' s1]. simpl in *.
    destruct ((fix go (l : list Element) := _) cs) as [l'' s2]. simpl in *. by rewrite IH.
Qed.

Lemma normalise_text_prints field dry_run x :
  Forall is_print (snd (normalise_text field dry_run x)).
Proof.
  unfold normalise_text. destruct x as [s|]; [|constructor].
  destruct (truthy s); [|constructor].
  destruct (negb _); simpl; repeat constructor.
Qed.

Lemma normalise_text_dry_run field x : fst (normalise_text field true x) = x.
Proof.
  unfold normalise_text. destruct x as [s|]; [|done].
  destruct (truthy s); [|done]. by destruct (negb _).
Qed.

Lemma normalise_list_cons name field dry_run c cs :
  normalise_list name field dry_run (c :: cs) =
  (fst (normalise_elem name field dry_run c) :: fst (normalise_list name field dry_run cs),
   snd (normalise_elem name field dry_run c) ++ snd (normalise_list name field dry_run cs)).
Proof.
  unfold normalise_list. simpl. by destruct (normalise_elem name field dry_run c).
Qed.

Lemma normalise_elem_prints name field dry_run e :
  Forall is_print (snd (normalise_elem name field dry_run e)).
Proof.
  induction e as [t x cs IH] using Element_induction.
  rewrite normalise_elem_eq.
  destruct (if bool_decide (t = name) then _ else _) as [x' shown] eqn:E. simpl.
  apply Forall_app. split.
  - destruct (bool_decide (t = name)).
    + pose proof (normalise_text_prints field dry_run x) as H. by rewrite E in H.
    + injection E as <- <-. constructor.
  - induction IH as [|c cs Hc _ IHcs]; [constructor|].
    rewrite normalise_list_cons. simpl. apply Forall_app. by split.
Qed.

Lemma normalise_elem_dry_run name field e :
  fst (normalise_elem name field true e) = e.
Proof.
  induction e as [t x cs IH] using Element_induction.
  rewrite normalise_elem_eq.
  destruct (if bool_decide (t = name) then _ else _) as [x' shown] eqn:E. simpl.
  assert (x' = x) as ->.
  { destruct (bool_decide (t = name)).
    - pose proof (normalise_text_dry_run field x) as H. by rewrite E in H.
    - by injection E as <- <-. }
  f_equal. induction IH as [|c cs Hc _ IHcs]; [done|].
  rewrite normalise_list_cons. simpl. by rewrite Hc, IHcs.
Qed.

Lemma normalise_list_prints name field dry_run cs :
  Forall is_print (snd (normalise_list name field dry_run cs)).
Proof.
  induction cs as [|c cs IH]; [constructor|].
  rewrite normalise_list_cons. simpl. apply Forall_app.
  split; [apply normalise_elem_prints | done].
Qed.

Lemma normalise_list_dry_run name field cs :
  fst (normalise_list name field true cs) = cs.
Proof.
  induction cs as [|c cs IH]; [done|].
  rewrite normalise_list_cons. simpl. by rewrite normalise_elem_dry_run, IH.
Qed.

Lemma normalise_below_prints name field dry_run root :
  Forall is_print (snd (normalise_below name field dry_run root)).
Proof.
  destruct root as [t x cs]. unfold normalise_below.
  pose proof (normalise_list_prints name field dry_run cs) as H.
  by destruct (normalise_list name field dry_run cs).
Qed.

Lemma normalise_below_dry_run name field root :
  fst (normalise_below name field true root) = root.
Proof.
  destruct root as [t x cs]. unfold normalise_below.
  pose proof (normalise_list_dry_run name field cs) as H.
  destruct (normalise_list name field true cs). simpl in *. by rewrite H.
Qed.

Lemma normalise_text_shows field dry_run x :
  Forall shows_normalised (snd (normalise_text field dry_run x)).
Proof.
  unfold normalise_text. destruct x as [s|]; [|constructor].
  destruct (truthy s); [|constructor].
  destruct (negb _); simpl; repeat constructor. by eexists _, _.
Qed.

Lemma normalise_list_shows name field dry_run cs :
  Forall shows_normalised (snd (normalise_list name field dry_run cs)).
Proof.
  induction cs as [|c cs IHcs]; [constructor|].
  rewrite normalise_list_cons. simpl. apply Forall_app. split; [|done].
  clear IHcs cs. induction c as [t x cs IH] using Element_induction.
  rewrite normalise_elem_eq.
  destruct (if bool_decide (t = name) then _ else _) as [x' shown] eqn:E. simpl.
  apply Forall_app. split.
  - destruct (bool_decide (t = name)).
    + pose proof (normalise_text_shows field dry_run x) as H. by rewrite E in H.
    + injection E as <- <-. constructor.
  - induction IH as [|c cs Hc _ IHcs]; [constructor|].
    rewrite normalise_list_cons. simpl. apply Forall_app. by split.
Qed.

Lemma normalise_below_shows name field dry_run root :
  Forall shows_normalised (snd (normalise_below name field dry_run root)).
Proof.
  destruct root as [t x cs]. unfold normalise_below.
  pose proof (normalise_list_shows name field dry_run cs) as H.
  by destruct (normalise_list name field dry_run cs).
Qed.

(* ===================================================================== *)
(* 18. Failures, backups and dry runs                                    *)
(* ===================================================================== *)

Section Runs.

Variable setter_raises : FormatKind -> string -> bool.
Variable now : DateTime.

(* The shape of every run of update_music_file on an audio file. *)
Lemma update_music_file_trace path dry_run backup d :
  let r := update_music_file setter_raises now path dry_run backup d in
  (disk r = d /\ Forall is_print (trace r)
   /\ result r <> mkResult true true UpdatedSuccessfully)
  \/ (dry_run = false /\ is_Some (d !! path)
      /\ result r = mkResult true true UpdatedSuccessfully
      /\ exists shown a2,
           Forall is_print shown
           /\ trace r = shown ++ (if backup then [Copy2 path (backup_path path now)] else [])
                              ++ [Save path]
           /\ disk r = <[path := AudioFile a2]>
                         (if backup then copy2 path (backup_path path now) d else d)).
Proof.
  unfold update_music_file.
  destruct (d !! path) as [[a| |]|] eqn:Hd; simpl;
    try (left; split; [done|]; split; [constructor | done]).
  destruct (process_field "Artist" _ _ _ _ _ _) as [[failed|[a1 changed1]] shown1] eqn:E1.
  { left. simpl. split; [done|]. split.
    - eapply prints_are_prints. intros e. by eapply process_field_prints.
    - apply process_field_fails in E1 as (-> & _). done. }
  assert (P1 : Forall is_print shown1).
  { eapply prints_are_prints. intros e. by eapply process_field_prints. }
  destruct (process_field "Album Artist" _ _ _ _ _ _) as [[failed|[a2 changed2]] shown2] eqn:E2.
  { left. simpl. split; [done|]. split.
    - apply Forall_app. split; [done|].
      eapply prints_are_prints. intros e. by eapply process_field_prints.
    - apply process_field_fails in E2 as (-> & _). done. }
  assert (P2 : Forall is_print shown2).
  { eapply prints_are_prints. intros e. by eapply process_field_prints. }
  destruct changed2; simpl.
  - destruct dry_run; simpl.
    + left. split; [done|]. split; [by apply Forall_app | done].
    + right. split; [done|]. split; [done|]. split; [done|].
      exists (shown1 ++ shown2), a2. split; [by apply Forall_app|].
      split; [by rewrite <- app_assoc | done].
  - left. split; [done|]. split; [by apply Forall_app | done].
Qed.

(* The same for update_nfo_file. *)
Lemma update_nfo_file_trace path dry_run backup d :
  let r := update_nfo_file now path dry_run backup d in
  (disk r = d /\ Forall is_print (trace r) /\ Forall shows_normalised (trace r)
   /\ result r <> mkResult true true UpdatedSuccessfully)
  \/ (dry_run = false /\ is_Some (d !! path)
      /\ result r = mkResult true true UpdatedSuccessfully
      /\ exists shown root2,
           Forall is_print shown
           /\ trace r = shown ++ (if backup then [Copy2 path (backup_path path now)] else [])
                              ++ [Save path]
           /\ disk r = <[path := XmlFile root2]>
                         (if backup then copy2 path (backup_path path now) d else d)).
Proof.
  unfold update_nfo_file.
  destruct (d !! path) as [[a|root|]|] eqn:Hd; simpl;
    try (left; split; [done|]; split; [constructor|]; split; [constructor | done]).
  pose proof (normalise_below_prints "artist" "Artist" dry_run root) as P1.
  pose proof (normalise_below_shows "artist" "Artist" dry_run root) as S1.
  destruct (normalise_below "artist" "Artist" dry_run root) as [root1 shown1].
  pose proof (normalise_below_prints "albumartist" "Album Artist" dry_run root1) as P2.
  pose proof (normalise_below_shows "albumartist" "Album Artist" dry_run root1) as S2.
  destruct (normalise_below "albumartist" "Album Artist" dry_run root1) as [root2 shown2].
  simpl in *.
  assert (P : Forall is_print (shown1 ++ shown2)) by (by apply Forall_app).
  assert (S : Forall shows_normalised (shown1 ++ shown2)) by (by apply Forall_app).
  destruct (negb (bool_decide (shown1 ++ shown2 = []))); simpl.
  - destruct dry_run; simpl.
    + by left.
    + right. split; [done|]. split; [done|]. split; [done|].
      exists (shown1 ++ shown2), (indent root2). split; [done|].
      split; [by rewrite <- app_assoc | done].
  - destruct dry_run; simpl; by left.
Qed.

End Runs.

Section Claims.

Variable setter_raises : FormatKind -> string -> bool.
Variable now : DateTime.


(** C6: with backups enabled, a call that writes a file (a music file or a
    sidecar document) makes exactly one copy of it, before the write, at the
    path of the file followed by .backup_ and the time as YYYYMMDD_HHMMSS;
    the copy holds what the file held before the call, and the call does
    nothing else to the disk but print. *)
Theorem backup_precedes_write path dry_run d :
  well_stamped (strftime now) = true
  /\ backup_path path now = (path ++ ".backup_" ++ strftime now)%string
  /\ (In (Save path) (trace (update_music_file setter_raises now path dry_run true d)) ->
      exists shown,
        Forall is_print shown
        /\ trace (update_music_file setter_raises now path dry_run true d)
           = shown ++ [Copy2 path (backup_path path now); Save path]
        /\ disk (update_music_file setter_raises now path dry_run true d)
             !! backup_path path now = d !! path
        /\ is_Some (d !! path))
  /\ (In (Save path) (trace (update_nfo_file now path dry_run true d)) ->
      exists shown,
        Forall is_print shown
        /\ trace (update_nfo_file now path dry_run true d)
           = shown ++ [Copy2 path (backup_path path now); Save path]
        /\ disk (update_nfo_file now path dry_run true d)
             !! backup_path path now = d !! path
        /\ is_Some (d !! path)).
Proof.
  split; [apply strftime_well_stamped|]. split; [reflexivity|].
  assert (Hnp : forall l : list Event, Forall is_print l -> ~ In (Save path) l).
  { intros l Hl Hin. rewrite List.Forall_forall in Hl. exact (Hl _ Hin). }
  split; intros Hsave.
  - destruct (update_music_file_trace setter_raises now path dry_run true d)
      as [(_ & H & _)|(_ & Hsome & _ & shown & a2 & Hp & Ht & Hd)];
      [by apply Hnp in H|].
    exists shown. split; [done|]. split; [done|]. split; [|done].
    rewrite Hd, lookup_insert_ne by (symmetry; apply backup_path_fresh).
    by apply copy2_lookup.
  - destruct (update_nfo_file_trace now path dry_run true d)
      as [(_ & H & _)|(_ & Hsome & _ & shown & a2 & Hp & Ht & Hd)];
      [by apply Hnp in H|].
    exists shown. split; [done|]. split; [done|]. split; [|done].
    rewrite Hd, lookup_insert_ne by (symmetry; apply backup_path_fresh).
    by apply copy2_lookup.
Qed.

(** C7: a dry run touches no file, takes no backup and only prints.  On an
    audio file it reports "Would be updated (dry run)" exactly when a field
    has a pending change, and "No changes needed" otherwise, and it prints,
    for each pending field, the current value and the value proposed; on a
    sidecar document every line printed shows the normalised form of the
    text it quotes, and the report is "Would be updated (dry run)" exactly
    when a line was printed; a whole dry batch leaves the disk as it was. *)
Theorem dry_run_changes_nothing path backup d :
  (disk (update_music_file setter_raises now path true backup d) = d
   /\ Forall is_print (trace (update_music_file setter_raises now path true backup d))
   /\ forall a, d !! path = Some (AudioFile a) ->
        result (update_music_file setter_raises now path true backup d)
        = (if field_pending (kind a) (get_current_artist a)
              || field_pending (kind a) (get_current_album_artist a)
           then mkResult true true WouldBeUpdated
           else mkResult true false NoChangesNeeded)
        /\ trace (update_music_file setter_raises now path true backup d)
           = (if field_pending (kind a) (get_current_artist a)
              then [Print "Artist" (default [] (get_current_artist a))
                      (new_format (kind a)
                         (parse_artists (default [] (get_current_artist a))))]
              else [])
             ++ (if field_pending (kind a) (get_current_album_artist a)
                 then [Print "Album Artist" (default [] (get_current_album_artist a))
                         (new_format (kind a)
                            (parse_artists (default [] (get_current_album_artist a))))]
                 else []))
  /\ (disk (update_nfo_file now path true backup d) = d
      /\ Forall is_print (trace (update_nfo_file now path true backup d))
      /\ Forall shows_normalised (trace (update_nfo_file now path true backup d))
      /\ forall root, d !! path = Some (XmlFile root) ->
           result (update_nfo_file now path true backup d)
           = match trace (update_nfo_file now path true backup d) with
             | [] => mkResult true false NoChangesNeeded
             | _ :: _ => mkResult true true WouldBeUpdated
             end)
  /\ (forall nfo_files music_files,
        snd (fst (process_directory setter_raises now nfo_files music_files true backup d))
        = d
        /\ Forall is_print
             (snd (process_directory setter_raises now nfo_files music_files true backup d))).
Proof.
  split; [|split].
  - destruct (update_music_file_trace setter_raises now path true backup d)
      as [(Hd & Hp & _)|(? & _)]; [|done].
    split; [done|]. split; [done|]. intros a Ha.
    unfold update_music_file. rewrite Ha.
    unfold update_artist, update_album_artist. rewrite process_field_dry_run.
    destruct (field_pending (kind a) (get_current_artist a));
      rewrite process_field_dry_run;
      destruct (field_pending (kind a) (get_current_album_artist a)); done.
  - destruct (update_nfo_file_trace now path true backup d)
      as [(Hd & Hp & Hs & _)|(? & _)]; [|done].
    split; [done|]. split; [done|]. split; [done|]. intros root Hroot.
    unfold update_nfo_file. rewrite Hroot.
    destruct (normalise_below "artist" "Artist" true root) as [root1 shown1].
    destruct (normalise_below "albumartist" "Album Artist" true root1) as [root2 shown2].
    destruct (shown1 ++ shown2); done.
  - intros nfo_files music_files. unfold process_directory.
    assert (Hloop : forall update files st tr,
              (forall f d0, disk (update f true backup d0) = d0
                            /\ Forall is_print (trace (update f true backup d0))) ->
              Forall is_print tr ->
              snd (fst (process_files update files true backup st d tr)) = d
              /\ Forall is_print (snd (process_files update files true backup st d tr))).
    { intros update files. induction files as [|f files IH]; intros st tr Hu Htr; [done|].
      simpl. destruct (Hu f d) as [-> Hp]. apply IH; [done|]. by apply Forall_app. }
    destruct (process_files (update_nfo_file now) nfo_files true backup
                (mkStats 0 0 0 0) d []) as [[st1 d1] tr1] eqn:E.
    destruct (Hloop (update_nfo_file now) nfo_files (mkStats 0 0 0 0) []) as [H1 H2];
      [|constructor|].
    { intros f d0. destruct (update_nfo_file_trace now f true backup d0)
        as [(Hd & Hp & _)|(? & _)]; done. }
    rewrite E in H1, H2. simpl in H1, H2. subst d1.
    apply Hloop; [|done].
    intros f d0. destruct (update_music_file_trace setter_raises now f true backup d0)
      as [(Hd & Hp & _)|(? & _)]; done.
Qed.

(** C8: a sidecar file that is not well-formed XML is reported as a parse
    failure; the disk is not touched, no backup is taken, nothing is
    printed; the batch counts one more file processed and one more error,
    and goes on with the files that follow. *)
Theorem malformed_nfo_is_counted path rest dry_run backup st d tr c :
  d !! path = Some c ->
  (forall root, c <> XmlFile root) ->
  update_nfo_file now path dry_run backup d
  = mkRun (mkResult false false XmlParseError) d []
  /\ process_files (update_nfo_file now) (path :: rest) dry_run backup st d tr
     = process_files (update_nfo_file now) rest dry_run backup
         (mkStats (processed st + 1) (updated st) (errors st + 1) (skipped st)) d tr.
Proof.
  intros Hd Hc.
  assert (H : update_nfo_file now path dry_run backup d
              = mkRun (mkResult false false XmlParseError) d []).
  { unfold update_nfo_file. rewrite Hd. destruct c as [a|root|b]; [done| |done].
    by destruct (Hc root). }
  split; [done|]. simpl. rewrite H. simpl. by rewrite app_nil_r.
Qed.

End Claims.


Lemma backup_precedes_write_witness :
  exists shown,
    Forall is_print shown
    /\ trace (update_music_file Sample.no_fault Sample.time "song.flac" false true
                Sample.library)
       = shown ++ [Copy2 "song.flac" (backup_path "song.flac" Sample.time);
                   Save "song.flac"]
    /\ disk (update_music_file Sample.no_fault Sample.time "song.flac" false true
               Sample.library)
         !! backup_path "song.flac" Sample.time
       = Sample.library !! "song.flac"%string
    /\ is_Some (Sample.library !! "song.flac"%string).
Proof.
  destruct (backup_precedes_write Sample.no_fault Sample.time "song.flac" false
              Sample.library) as (_ & _ & H & _).
  apply H. vm_compute. tauto.
Defined.

Lemma malformed_nfo_is_counted_witness :
  update_nfo_file Sample.time "broken.nfo" false true Sample.library
  = mkRun (mkResult false false XmlParseError) Sample.library []
  /\ process_files (update_nfo_file Sample.time) ["broken.nfo"; "album.nfo"]%string
       false true (mkStats 0 0 0 0) Sample.library []
     = process_files (update_nfo_file Sample.time) ["album.nfo"%string]
         false true (mkStats 1 0 1 0) Sample.library [].
Proof.
  apply (malformed_nfo_is_counted Sample.time "broken.nfo" ["album.nfo"%string]
           false true (mkStats 0 0 0 0) Sample.library [] (OtherFile (txt "<album>"))).
  - reflexivity.
  - intros root. discriminate.
Defined.

(* ===================================================================== *)
(* 19. Fields with several native values                                 *)
(* ===================================================================== *)

(* Only the first value of a FLAC or Ogg Vorbis field is read. *)
Lemma native_read ak vk fk a m v rest :
  is_native (kind a) = true ->
  tags a = Some m ->
  m !! vk = Some (v :: rest) ->
  get_current ak vk fk a = Some v.
Proof.
  intros Hk Ht Hm. unfold get_current, has_key, first_value. rewrite Ht, Hm.
  destruct (kind a); try discriminate; by rewrite bool_decide_eq_true_2 by eauto.
Qed.

Section Native.

Variable setter_raises : FormatKind -> string -> bool.

(* A field of a FLAC or Ogg Vorbis file that holds the values v :: rest. *)
Lemma native_field ak vk fk a m v rest :
  is_native (kind a) = true ->
  tags a = Some m ->
  m !! vk = Some (v :: rest) ->
  get_current ak vk fk a = Some v
  /\ forall field failure dry_run changed,
       process_field field failure (update_field setter_raises ak vk fk) dry_run
         (get_current ak vk fk a) a changed
       = if truthy v && would_change (kind a) v (parse_artists v) then
           if dry_run then
             (inr (a, true), [Print field v (AsList (parse_artists v))])
           else if setter_raises (kind a) vk then
             (inl (mkResult false false failure), [Print field v (AsList (parse_artists v))])
           else
             (inr (mkAudio (kind a) (Some (<[vk := parse_artists v]> m)), true),
              [Print field v (AsList (parse_artists v))])
         else (inr (a, changed), []).
Proof.
  intros Hk Ht Hm.
  pose proof (native_read ak vk fk a m v rest Hk Ht Hm) as Hg.
  split; [done|]. intros field failure dry_run changed. rewrite Hg.
  unfold process_field. destruct (truthy v); [|done]. simpl.
  destruct (would_change (kind a) v (parse_artists v)) eqn:Hw; [|done].
  unfold new_format. rewrite Hk. destruct dry_run; simpl; [done|].
  unfold update_field, set_item. rewrite Ht.
  assert (Hne : parse_artists v <> []).
  { intros E. unfold would_change in Hw. by rewrite Hk, E in Hw. }
  destruct a as [k t]. simpl in *.
  destruct k; try discriminate; destruct (setter_raises _ vk); try done;
    by destruct (parse_artists v).
Qed.

(** C3, as stated, fails: a FLAC file whose artist field holds the two
    values "A" and "B feat. C" is found to need no change, although the
    list parsed from what is read, ["A"], is not the list stored, and
    neither is the list parsed from all the values. *)
Lemma native_decision_ignores_stored_list :
  get_current_artist Sample.flac_two_values = Some (txt "A")
  /\ field_pending FLAC (get_current_artist Sample.flac_two_values) = false
  /\ parse_artists (txt "A") <> [txt "A"; txt "B feat. C"]
  /\ flat_map parse_artists [txt "A"; txt "B feat. C"] <> [txt "A"; txt "B feat. C"].
Proof. by repeat split. Qed.

(** C3, amended: for a FLAC or Ogg Vorbis file the decision that no change
    is needed is taken from the first value stored in the field, and from
    nothing else: no change is needed exactly when parsing that value gives
    no name or gives that value alone. *)
Theorem native_decision_from_first_value ak vk fk a m v rest :
  is_native (kind a) = true ->
  tags a = Some m ->
  m !! vk = Some (v :: rest) ->
  get_current ak vk fk a = Some v
  /\ (field_pending (kind a) (get_current ak vk fk a) = false
      <-> parse_artists v = [] \/ parse_artists v = [v]).
Proof.
  intros Hk Ht Hm. pose proof (native_read ak vk fk a m v rest Hk Ht Hm) as Hg.
  split; [done|]. rewrite Hg. unfold field_pending, would_change. rewrite Hk.
  destruct v as [|c v]; [by split; [left|]|]. simpl truthy. cbv iota. rewrite andb_true_l.
  destruct (parse_artists (c :: v)) as [|first l] eqn:E; [by split; [left|]|].
  split.
  - intros H. right. apply orb_false_iff in H as [H1 H2].
    apply negb_false_iff, text_eqb_eq in H2 as <-.
    destruct l; [done|]. simpl in H1. discriminate.
  - intros [H|H]; [discriminate|]. injection H as -> ->. simpl.
    by rewrite text_eqb_refl.
Qed.

(** C10: in a FLAC or Ogg Vorbis file whose artist or album-artist field
    stores several values, only the first is read; the decision and the
    list written are those of parse_artists on that first value; and a
    write puts that list in the place of all the values stored. *)
Theorem native_multi_value_first_only a m :
  is_native (kind a) = true ->
  tags a = Some m ->
  (forall v rest dry_run changed,
     m !! key_artist = Some (v :: rest) ->
     get_current_artist a = Some v
     /\ process_field "Artist" FailedToUpdateArtist (update_artist setter_raises)
          dry_run (get_current_artist a) a changed
        = if truthy v && would_change (kind a) v (parse_artists v) then
            if dry_run then
              (inr (a, true), [Print "Artist" v (AsList (parse_artists v))])
            else if setter_raises (kind a) key_artist then
              (inl (mkResult false false FailedToUpdateArtist),
               [Print "Artist" v (AsList (parse_artists v))])
            else
              (inr (mkAudio (kind a) (Some (<[key_artist := parse_artists v]> m)), true),
               [Print "Artist" v (AsList (parse_artists v))])
          else (inr (a, changed), []))
  /\ (forall v rest dry_run changed,
        m !! key_albumartist = Some (v :: rest) ->
        get_current_album_artist a = Some v
        /\ process_field "Album Artist" FailedToUpdateAlbumArtist
             (update_album_artist setter_raises)
             dry_run (get_current_album_artist a) a changed
           = if truthy v && would_change (kind a) v (parse_artists v) then
               if dry_run then
                 (inr (a, true), [Print "Album Artist" v (AsList (parse_artists v))])
               else if setter_raises (kind a) key_albumartist then
                 (inl (mkResult false false FailedToUpdateAlbumArtist),
                  [Print "Album Artist" v (AsList (parse_artists v))])
               else
                 (inr (mkAudio (kind a)
                         (Some (<[key_albumartist := parse_artists v]> m)), true),
                  [Print "Album Artist" v (AsList (parse_artists v))])
             else (inr (a, changed), [])).
Proof.
  intros Hk Ht. split; intros v rest dry_run changed Hm.
  - destruct (native_field key_ART key_artist key_TPE1 a m v rest Hk Ht Hm) as [Hg Hp].
    split; [done|]. apply Hp.
  - destruct (native_field key_aART key_albumartist key_TPE2 a m v rest Hk Ht Hm)
      as [Hg Hp].
    split; [done|]. apply Hp.
Qed.

End Native.

Lemma native_decision_from_first_value_witness :
  get_current_artist Sample.flac_two_values = Some (txt "A")
  /\ (field_pending FLAC (get_current_artist Sample.flac_two_values) = false
      <-> parse_artists (txt "A") = [] \/ parse_artists (txt "A") = [txt "A"]).
Proof.
  apply (native_decision_from_first_value key_ART key_artist key_TPE1
           Sample.flac_two_values {[ key_artist := [txt "A"; txt "B feat. C"] ]}
           (txt "A") [txt "B feat. C"]); reflexivity.
Defined.

Lemma native_multi_value_first_only_witness :
  get_current_artist (mkAudio FLAC (Some {[ key_artist := [txt "A & B"; txt "C"] ]}))
  = Some (txt "A & B")
  /\ process_field "Artist" FailedToUpdateArtist (update_artist Sample.no_fault) false
       (get_current_artist (mkAudio FLAC (Some {[ key_artist := [txt "A & B"; txt "C"] ]})))
       (mkAudio FLAC (Some {[ key_artist := [txt "A & B"; txt "C"] ]})) false
     = (inr (mkAudio FLAC (Some {[ key_artist := [txt "A"; txt "B"] ]}), true),
        [Print "Artist" (txt "A & B") (AsList [txt "A"; txt "B"])]).
Proof.
  destruct (native_multi_value_first_only Sample.no_fault
              (mkAudio FLAC (Some {[ key_artist := [txt "A & B"; txt "C"] ]}))
              {[ key_artist := [txt "A & B"; txt "C"] ]} eq_refl eq_refl) as [H _].
  destruct (H (txt "A & B") [txt "C"] false false eq_refl) as [H1 H2].
  split; [exact H1|]. rewrite H2. vm_compute. reflexivity.
Defined.

(* ===================================================================== *)
(* 20. Genres                                                            *)
(* ===================================================================== *)

Lemma findall_eq name t x cs :
  findall name (Elem t x cs)
  = flat_map (fun c => (if bool_decide (tag c = name) then [c] else []) ++ findall name c) cs.
Proof.
  unfold findall. simpl. induction cs as [|c cs IH]; [done|].
  simpl. rewrite List.filter_app, IH. f_equal.
  destruct c as [t' x' cs']. simpl. by destruct (bool_decide (t' = name)).
Qed.

Lemma findall_without_genres cs :
  forallb (fun c => bool_decide (findall "genre" c = [])) cs = true ->
  flat_map (fun c => (if bool_decide (tag c = "genre"%string) then [c] else [])
                     ++ findall "genre" c)
    (List.filter (fun c => negb (Metadata.is_genre c)) cs) = [].
Proof.
  induction cs as [|c cs IH]; [done|]. simpl. intros H.
  apply andb_true_iff in H as [Hc Hcs]. apply bool_decide_eq_true in Hc.
  unfold Metadata.is_genre at 1.
  destruct (bool_decide (tag c = "genre"%string)) eqn:E; simpl; [by apply IH|].
  rewrite E, Hc. by apply IH.
Qed.

Lemma findall_new_genres (genres : list text) :
  flat_map (fun c => (if bool_decide (tag c = "genre"%string) then [c] else [])
                     ++ findall "genre" c)
    (map (fun g => Elem "genre" (Some g) []) genres)
  = map (fun g => Elem "genre" (Some g) []) genres.
Proof. induction genres as [|g l IH]; [done|]. simpl. by rewrite IH. Qed.

Section Genres.

Variable search_album_on_musicbrainz : text -> text -> option text.
Variable get_genres_from_musicbrainz : text -> list text.

(** C9, as stated, fails: with the force flag off a document whose only
    genre is "music", in small letters, triggers the lookup, and that is
    none of the three cases the claim allows. *)
Lemma genre_trigger_is_not_literal :
  Metadata.needs_genre_fetch false [Elem "genre" (Some (txt "music")) []] = true
  /\ spec_needs_genre_fetch [Elem "genre" (Some (txt "music")) []] = false.
Proof. by split. Qed.

(** C9, amended: with genre fetching on and the force flag off, the lookup
    is triggered exactly when there is no genre element, or every genre
    element is blank, or there is one genre element whose text, trimmed and
    in small letters, is "music".  When it is triggered, an identifier is
    found, the genres returned are not empty and every genre element is a
    child of the root, the genre elements are taken out and the genres
    returned are appended to the root, one element each, in their order:
    they are then the genre elements of the document. *)
Theorem genre_enrichment :
  (forall existing_genres,
     Metadata.needs_genre_fetch false existing_genres = true
     <-> existing_genres = []
         \/ forallb Metadata.empty_genre existing_genres = true
         \/ exists g s, existing_genres = [g] /\ etext g = Some s /\ s <> []
                        /\ map lower (strip s) = txt "music")
  /\ (forall force_genres t x cs mb_id,
        Metadata.needs_genre_fetch force_genres (findall "genre" (Elem t x cs)) = true ->
        Metadata.resolve_mb_id search_album_on_musicbrainz (Elem t x cs) = Some mb_id ->
        get_genres_from_musicbrainz mb_id <> [] ->
        forallb (fun c => bool_decide (findall "genre" c = [])) cs = true ->
        Metadata.fetch_genres_step search_album_on_musicbrainz
          get_genres_from_musicbrainz force_genres (Elem t x cs)
        = Some (Elem t x
                  (List.filter (fun c => negb (Metadata.is_genre c)) cs
                   ++ map (fun g => Elem "genre" (Some g) [])
                        (get_genres_from_musicbrainz mb_id)),
                true)
        /\ findall "genre"
             (Elem t x
                (List.filter (fun c => negb (Metadata.is_genre c)) cs
                 ++ map (fun g => Elem "genre" (Some g) [])
                      (get_genres_from_musicbrainz mb_id)))
           = map (fun g => Elem "genre" (Some g) []) (get_genres_from_musicbrainz mb_id)).
Proof.
  split.
  - intros gs. unfold Metadata.needs_genre_fetch.
    destruct gs as [|g gs]; [by split; [left|]|]. simpl length. simpl negb. cbv iota.
    destruct (forallb Metadata.empty_genre (g :: gs)) eqn:He; [by split; [right; left|]|].
    destruct gs as [|g' gs].
    + unfold Metadata.generic_genre. split.
      * intros H. right. right. destruct (etext g) as [s|] eqn:Es; [|done].
        apply andb_true_iff in H as [H1 H2]. apply text_eqb_eq in H2.
        exists g, s. split; [done|]. split; [done|]. split; [by destruct s | done].
      * intros [H|[H|(g0 & s & [= <-] & Es & Hs & Hm)]]; [done..|].
        rewrite Es. apply andb_true_iff. split; [by destruct s|]. by apply text_eqb_eq.
    + split; [done|]. intros [H|[H|(g0 & s & H & _)]]; done.
  - intros force_genres t x cs mb_id Htrig Hid Hg Hcs. split.
    + unfold Metadata.fetch_genres_step. rewrite Htrig, Hid.
      destruct (get_genres_from_musicbrainz mb_id) as [|g l] eqn:E; [done|].
      unfold Metadata.remove_genres. by rewrite Hcs.
    + rewrite findall_eq, flat_map_app, findall_without_genres by done.
      apply findall_new_genres.
Qed.

End Genres.

Lemma genre_enrichment_witness :
  Metadata.fetch_genres_step Sample.search Sample.genres false Sample.album
  = Some (Elem "album" None
            [ Elem "title" (Some (txt "Songs")) [];
              Elem "artist" (Some (txt "A feat. B")) [];
              Elem "genre" (Some (txt "Rock")) [];
              Elem "genre" (Some (txt "Pop")) [] ], true)
  /\ findall "genre"
       (Elem "album" None
          [ Elem "title" (Some (txt "Songs")) [];
            Elem "artist" (Some (txt "A feat. B")) [];
            Elem "genre" (Some (txt "Rock")) [];
            Elem "genre" (Some (txt "Pop")) [] ])
     = [ Elem "genre" (Some (txt "Rock")) []; Elem "genre" (Some (txt "Pop")) [] ].
Proof.
  destruct (genre_enrichment Sample.search Sample.genres) as [_ H].
  apply (H false "album"%string None
           [ Elem "title" (Some (txt "Songs")) [];
             Elem "artist" (Some (txt "A feat. B")) [];
             Elem "genre" (Some (txt "music")) [] ] (txt "mbid-1")).
  - reflexivity.
  - reflexivity.
  - vm_compute. discriminate.
  - reflexivity.
Defined.

(* ===================================================================== *)
(* 21. Sidecar documents: a second run                                   *)
(* ===================================================================== *)

Lemma all_space_lstrip l : all_space l -> lstrip l = [].
Proof. induction 1 as [|c l Hc _ IH]; simpl; [done | by rewrite Hc]. Qed.

Lemma all_space_strip l : all_space l -> strip l = [].
Proof. intros H. unfold strip. by rewrite all_space_lstrip. Qed.

Lemma indentation_all_space n : all_space (indentation n).
Proof.
  unfold indentation. constructor; [reflexivity|].
  induction n as [|n IH]; simpl; [constructor|]. by repeat constructor.
Qed.

Lemma stable_indentation n : stable (Some (indentation n)).
Proof.
  simpl. intros _. by rewrite all_space_strip by apply indentation_all_space.
Qed.

Lemma normalise_text_stable field x : stable (fst (normalise_text field false x)).
Proof.
  unfold normalise_text. destruct x as [s|]; [|done].
  destruct (truthy s) eqn:Ht; [|simpl; congruence].
  destruct (text_eqb _ _) eqn:E; simpl.
  - intros _. by apply text_eqb_eq in E.
  - unfold format_artists_to_semicolon. intros Hne.
    destruct (parse_artists (strip s)) as [|a l] eqn:Ep; [done|].
    assert (Hc : clean_name (join (txt ";") (a :: l))).
    { rewrite <- Ep. apply join_clean; [by rewrite Ep | apply parse_artists_all_clean]. }
    rewrite (strip_fix _ (clean_lstrip _ Hc) (clean_rstrip _ Hc)).
    by rewrite (parse_artists_of_clean _ Hc).
Qed.

Lemma normalise_text_of_stable field dry_run x :
  stable x -> normalise_text field dry_run x = (x, []).
Proof.
  unfold normalise_text, stable. destruct x as [s|]; [|done].
  destruct (truthy s); [|done]. intros H. rewrite (H eq_refl).
  by rewrite text_eqb_refl.
Qed.

Lemma settled_inv name t x cs :
  settled name (Elem t x cs) -> (t = name -> stable x) /\ Forall (settled name) cs.
Proof. by inversion 1. Qed.

(* The loop settles the elements it visits and keeps the others settled. *)
Lemma normalise_elem_settles name field e :
  settled name (fst (normalise_elem name field false e)).
Proof.
  induction e as [t x cs IH] using Element_induction.
  rewrite normalise_elem_eq.
  destruct (if bool_decide (t = name) then _ else _) as [x' shown] eqn:E. simpl.
  constructor.
  - intros ->. rewrite bool_decide_eq_true_2 in E by done.
    pose proof (normalise_text_stable field x) as H. by rewrite E in H.
  - induction IH as [|c cs Hc _ IHcs]; [constructor|].
    rewrite normalise_list_cons. simpl. by constructor.
Qed.

Lemma normalise_elem_keeps name name' field e :
  settled name e -> settled name (fst (normalise_elem name' field false e)).
Proof.
  induction e as [t x cs IH] using Element_induction. intros Hs.
  apply settled_inv in Hs as [Hx Hcs].
  rewrite normalise_elem_eq.
  destruct (if bool_decide (t = name') then _ else _) as [x' shown] eqn:E. simpl.
  constructor.
  - intros Ht. destruct (bool_decide (t = name')).
    + pose proof (normalise_text_stable field x) as H. by rewrite E in H.
    + injection E as <- _. by apply Hx.
  - clear E. induction IH as [|c cs Hc _ IHcs]; [constructor|].
    apply Forall_cons_1 in Hcs as [Hc' Hcs']. rewrite normalise_list_cons. simpl.
    constructor; [by apply Hc | by apply IHcs].
Qed.

Lemma indent_children_keeps name : forall e level,
  settled name e -> settled name (indent_children level e).
Proof.
  induction e as [t x cs IH] using Element_induction. intros level Hs.
  apply settled_inv in Hs as [Hx Hcs]. simpl.
  destruct cs as [|c cs]; [by constructor|].
  constructor.
  - intros Ht. destruct (blank x); [apply stable_indentation | by apply Hx].
  - rewrite List.Forall_forall in IH. apply List.Forall_forall. intros e He.
    apply in_map_iff in He as (e0 & <- & He0). apply IH; [done|].
    rewrite List.Forall_forall in Hcs. by apply Hcs.
Qed.

Lemma normalise_elem_of_settled name field dry_run e :
  settled name e -> normalise_elem name field dry_run e = (e, []).
Proof.
  induction e as [t x cs IH] using Element_induction. intros Hs.
  apply settled_inv in Hs as [Hx Hcs].
  rewrite normalise_elem_eq.
  assert (E : (if bool_decide (t = name) then normalise_text field dry_run x else (x, []))
              = (x, [])).
  { case_bool_decide; [|done]. by apply normalise_text_of_stable, Hx. }
  rewrite E. simpl.
  assert (Hl : normalise_list name field dry_run cs = (cs, [])).
  { induction IH as [|c cs Hc _ IHcs]; [done|].
    apply Forall_cons_1 in Hcs as [Hc' Hcs']. rewrite normalise_list_cons.
    by rewrite Hc, IHcs. }
  by rewrite Hl.
Qed.

Lemma normalise_list_fst name field dry_run cs :
  fst (normalise_list name field dry_run cs)
  = map (fun c => fst (normalise_elem name field dry_run c)) cs.
Proof.
  induction cs as [|c cs IH]; [done|]. rewrite normalise_list_cons. simpl. by rewrite IH.
Qed.

Lemma normalise_below_of_settled name field dry_run root :
  Forall (settled name) (children root) ->
  normalise_below name field dry_run root = (root, []).
Proof.
  destruct root as [t x cs]. simpl. intros H.
  assert (Hl : normalise_list name field dry_run cs = (cs, [])).
  { induction H as [|c cs Hc _ IHcs]; [done|]. rewrite normalise_list_cons.
    by rewrite normalise_elem_of_settled, IHcs. }
  by rewrite Hl.
Qed.

Lemma normalise_below_eq name field dry_run t x cs :
  normalise_below name field dry_run (Elem t x cs)
  = (Elem t x (fst (normalise_list name field dry_run cs)),
     snd (normalise_list name field dry_run cs)).
Proof. simpl. by destruct (normalise_list name field dry_run cs). Qed.

(* The children of the root that a run writes are settled for both names. *)
Lemma written_document_settled root name :
  name = "artist"%string \/ name = "albumartist"%string ->
  Forall (settled name)
    (children (indent (fst (normalise_below "albumartist" "Album Artist" false
                              (fst (normalise_below "artist" "Artist" false root)))))).
Proof.
  intros Hname. destruct root as [t x cs].
  rewrite (normalise_below_eq "artist"). cbn [fst].
  rewrite normalise_below_eq. cbn [fst]. rewrite !normalise_list_fst.
  set (cs2 := map _ (map _ cs)).
  assert (Hs : Forall (settled name) cs2).
  { subst cs2. apply List.Forall_forall. intros e He.
    apply in_map_iff in He as (e1 & <- & He1).
    apply in_map_iff in He1 as (e0 & <- & He0).
    destruct Hname as [-> | ->].
    - apply normalise_elem_keeps, normalise_elem_settles.
    - apply normalise_elem_settles. }
  clearbody cs2. unfold indent. simpl. destruct cs2 as [|c cs2]; [constructor|]. simpl.
  apply List.Forall_forall. intros e He.
  change (In e (map (indent_children 1) (c :: cs2))) in He.
  apply in_map_iff in He as (e0 & <- & He0). apply indent_children_keeps.
  rewrite List.Forall_forall in Hs. by apply Hs.
Qed.

(* Inspect after Apply on a sidecar document. *)
Lemma update_nfo_file_twice now path backup backup' dry_run d :
  result (update_nfo_file now path false backup d)
  = mkResult true true UpdatedSuccessfully ->
  update_nfo_file now path dry_run backup' (disk (update_nfo_file now path false backup d))
  = mkRun (mkResult true false NoChangesNeeded)
      (disk (update_nfo_file now path false backup d)) [].
Proof.
  unfold update_nfo_file at 1 3 4.
  destruct (d !! path) as [[a|root|b]|] eqn:Hd; simpl; try discriminate.
  pose proof (written_document_settled root "artist" (or_introl eq_refl)) as Hs1.
  pose proof (written_document_settled root "albumartist" (or_intror eq_refl)) as Hs2.
  destruct (normalise_below "artist" "Artist" false root) as [root1 shown1].
  cbn [fst] in Hs1, Hs2.
  destruct (normalise_below "albumartist" "Album Artist" false root1) as [root2 shown2].
  cbn [fst] in Hs1, Hs2.
  destruct (negb (bool_decide (shown1 ++ shown2 = []))); simpl; [|discriminate].
  intros _. unfold update_nfo_file. rewrite lookup_insert_eq.
  rewrite normalise_below_of_settled by done.
  rewrite normalise_below_of_settled by done. reflexivity.
Qed.

(* ===================================================================== *)
(* 22. Idempotence                                                       *)
(* ===================================================================== *)

(** C1: Apply is idempotent.  Joining with ';' the names parsed from the
    joined names of any string gives the joined names again; the value read
    back from a field that was just written, the first name for FLAC and
    Ogg Vorbis and the joined names for the other classes, has no pending
    change; and a run of update_music_file, or of update_nfo_file, right
    after a run that updated the file reports "No changes needed", prints
    nothing and leaves the disk as it is, for every class of file. *)
Theorem apply_is_idempotent :
  (forall s,
     join (txt ";") (parse_artists (join (txt ";") (parse_artists s)))
     = join (txt ";") (parse_artists s))
  /\ (forall k s v rest,
        is_native k = true -> parse_artists s = v :: rest ->
        would_change k v (parse_artists v) = false)
  /\ (forall k s,
        is_native k = false ->
        field_pending k (Some (join (txt ";") (parse_artists s))) = false)
  /\ (forall setter_raises now path backup backup' dry_run d,
        result (update_music_file setter_raises now path false backup d)
        = mkResult true true UpdatedSuccessfully ->
        update_music_file setter_raises now path dry_run backup'
          (disk (update_music_file setter_raises now path false backup d))
        = mkRun (mkResult true false NoChangesNeeded)
            (disk (update_music_file setter_raises now path false backup d)) [])
  /\ (forall now path backup backup' dry_run d,
        result (update_nfo_file now path false backup d)
        = mkResult true true UpdatedSuccessfully ->
        update_nfo_file now path dry_run backup'
          (disk (update_nfo_file now path false backup d))
        = mkRun (mkResult true false NoChangesNeeded)
            (disk (update_nfo_file now path false backup d)) []).
Proof.
  split; [apply join_parse_idempotent|]. split; [|split; [|split]].
  - intros k s v rest Hk Hs. pose proof (written_not_pending k s) as H.
    rewrite Hk, Hs in H. simpl in H.
    assert (Hv : clean_name v) by (apply (parse_artists_clean s); rewrite Hs; by left).
    destruct v as [|c v]; [by destruct Hv|]. exact H.
  - intros k s Hk. pose proof (written_not_pending k s) as H. by rewrite Hk in H.
  - intros setter_raises now path backup backup' dry_run d Hres.
    by eapply update_music_file_twice.
  - intros now path backup backup' dry_run d Hres. by apply update_nfo_file_twice.
Qed.

Lemma apply_is_idempotent_witness :
  result (update_music_file Sample.no_fault Sample.time "song.flac" false true
            Sample.library)
  = mkResult true true UpdatedSuccessfully
  /\ update_music_file Sample.no_fault Sample.time "song.flac" false true
       (disk (update_music_file Sample.no_fault Sample.time "song.flac" false true
                Sample.library))
     = mkRun (mkResult true false NoChangesNeeded)
         (disk (update_music_file Sample.no_fault Sample.time "song.flac" false true
                  Sample.library)) [].
Proof.
  split; [reflexivity|].
  destruct apply_is_idempotent as (_ & _ & _ & H & _). apply H. reflexivity.
Defined.

(* ===================================================================== *)
(* 23. More on the parser                                                *)
(* ===================================================================== *)

(* A character that no atom accepts stops the matcher: what lies behind it
   plays no part. *)
Lemma match_here_barrier ci r c y :
  isspace c = false ->
  forallb (fun a => negb (Re.chr_match ci a c)) (Re.chars r) = true ->
  forall x,
    Re.match_here ci r (x ++ c :: y) = (fun t => t ++ c :: y) <$> Re.match_here ci r x.
Proof.
  intros Hc. induction r as [|a r IH]; intros Hall x; [done|].
  destruct a as [|a|a].
  - induction x as [|b x IHx].
    + simpl app. rewrite match_here_spaces_cons, Hc. done.
    + change ((b :: x) ++ c :: y) with (b :: (x ++ c :: y)).
      rewrite !match_here_spaces_cons. destruct (isspace b); [|done].
      rewrite IHx. destruct (Re.match_here ci (Re.Spaces :: r) x); [done|].
      by apply IH.
  - simpl in Hall. apply andb_true_iff in Hall as [Ha Hall].
    apply negb_true_iff in Ha. destruct x as [|b x]; simpl.
    + by rewrite Ha.
    + destruct (Re.chr_match ci a b); [by apply IH | done].
  - simpl in Hall. apply andb_true_iff in Hall as [Ha Hall].
    apply negb_true_iff in Ha. destruct x as [|b x]; simpl.
    + rewrite Ha. by apply (IH Hall []).
    + destruct (Re.chr_match ci a b).
      * rewrite (IH Hall x). destruct (Re.match_here ci r x); [done|].
        by apply (IH Hall (b :: x)).
      * by apply (IH Hall (b :: x)).
Qed.

Lemma sub_barrier p repl c y :
  Re.leading_spaces p -> Re.avoids p c = true ->
  forall x, Re.sub p repl (x ++ c :: y) = Re.sub p repl x ++ c :: Re.sub p repl y.
Proof.
  intros Hl Hav. unfold Re.avoids in Hav. apply andb_true_iff in Hav as [Hc Hall].
  apply negb_true_iff in Hc.
  intros x. induction x as [x IH] using (induction_ltof1 _ (@length ascii)).
  destruct x as [|b x].
  - rewrite (sub_nil p repl Hl). change ([] ++ c :: y) with (c :: y).
    change ([] ++ c :: Re.sub p repl y) with (c :: Re.sub p repl y). apply sub_cons_none.
    change (c :: y) with ([] ++ c :: y).
    rewrite (match_here_barrier _ _ c y Hc Hall []).
    destruct (Re.match_here _ _ []) as [t|] eqn:E; [|done].
    apply (match_here_shorter p Hl) in E. simpl in E. lia.
  - change ((b :: x) ++ c :: y) with (b :: (x ++ c :: y)).
    destruct (Re.match_here (Re.ignorecase p) (Re.body p) (b :: x)) as [t|] eqn:E.
    + rewrite (sub_cons_some p repl Hl b x t E).
      rewrite (sub_cons_some p repl Hl b (x ++ c :: y) (t ++ c :: y)).
      * rewrite IH; [by rewrite <- app_assoc|].
        unfold ltof. by apply (match_here_shorter p Hl).
      * change (b :: x ++ c :: y) with ((b :: x) ++ c :: y).
        by rewrite (match_here_barrier _ _ c y Hc Hall), E.
    + rewrite (sub_cons_none p repl b x E).
      rewrite (sub_cons_none p repl b (x ++ c :: y)).
      * rewrite IH; [done|]. unfold ltof. simpl. lia.
      * change (b :: x ++ c :: y) with ((b :: x) ++ c :: y).
        by rewrite (match_here_barrier _ _ c y Hc Hall), E.
Qed.

Lemma rewrite_separators_comma x y :
  rewrite_separators (x ++ comma :: y)
  = rewrite_separators x ++ comma :: rewrite_separators y.
Proof.
  unfold rewrite_separators.
  assert (H : forall p, In p rewrites -> Re.leading_spaces p /\ Re.avoids p comma = true)
    by (intros p Hp; split; [by apply rewrites_leading | by apply rewrites_avoid_comma]).
  revert x y H. generalize rewrites as l.
  induction l as [|p l IH]; intros x y H; simpl; [done|].
  destruct (H p) as [Hl Hc]; [by left|].
  rewrite sub_barrier by done. apply IH. intros q Hq. apply H. by right.
Qed.

Lemma split_app_sep d u v : split d (u ++ d :: v) = split d u ++ split d v.
Proof.
  induction u as [|a u IH]; simpl.
  - by rewrite (proj2 (ascii_eqb_true d d) eq_refl).
  - destruct (ascii_eqb a d); rewrite IH; [done|].
    destruct (split d u) eqn:E; [by destruct (split_nonempty d u) | done].
Qed.

Lemma rewrite_separators_nil : rewrite_separators [] = [].
Proof. reflexivity. Qed.

(* The test on the empty string changes nothing: the empty string has one
   empty piece, which is dropped. *)
Lemma parse_artists_unfold s :
  parse_artists s
  = List.filter truthy (map strip (split comma (rewrite_separators s))).
Proof. destruct s; [by rewrite rewrite_separators_nil | done]. Qed.

(** X1: the parts of a credit string on either side of a comma are parsed
    on their own: the names of a ++ "," ++ b are the names of a followed by
    the names of b. *)
Theorem parse_artists_comma a b :
  parse_artists (a ++ comma :: b) = parse_artists a ++ parse_artists b.
Proof.
  rewrite !parse_artists_unfold, rewrite_separators_comma, split_app_sep.
  by rewrite map_app, List.filter_app.
Qed.

(* In f, a comma-free string that does not start with white space, is found
   in what re.sub returns, then it is found in what re.sub was given. *)
Lemma sub_keeps_factors p s :
  Re.leading_spaces p ->
  forall f u v,
    Re.sub p (txt ", ") s = u ++ f ++ v -> ~ In comma f -> lstrip f = f ->
    exists u' v', s = u' ++ f ++ v'.
Proof.
  intros Hl.
  apply (sub_rel p (txt ", ") Hl
           (fun s out => forall f u v, out = u ++ f ++ v -> ~ In comma f -> lstrip f = f ->
                                       exists u' v', s = u' ++ f ++ v')).
  - intros s0 _ f u v -> _ _. by exists u, v.
  - intros c w t out Hw Hno IH f u v Hout Hnc Hf.
    destruct f as [|x f]; [by exists [], (c ++ w ++ t)|].
    pose proof (lstrip_head _ _ _ Hf) as Hx.
    change (txt ", " ++ out) with (comma :: " "%char :: out) in Hout.
    apply app_eq_app in Hout as [l [[-> Hl']|[-> Hl']]].
    + (* f starts in c *)
      apply app_eq_app in Hl' as [l2 [[Hf2 Hl2]|[-> Hl2]]].
      * destruct l2 as [|c2 l2].
        -- rewrite app_nil_r in Hf2. subst l. exists u, (w ++ t).
           by rewrite <- !app_assoc.
        -- injection Hl2 as <- _. exfalso. apply Hnc. rewrite Hf2.
           apply in_app_iff. right. by left.
      * exists u, (l2 ++ w ++ t). by rewrite <- !app_assoc.
    + (* f starts behind c *)
      destruct l as [|c1 l].
      { simpl in Hl'. injection Hl' as <- _. exfalso. apply Hnc. by left. }
      injection Hl' as <- Hl'.
      destruct l as [|c2 l].
      { simpl in Hl'. injection Hl' as <- _. discriminate Hx. }
      injection Hl' as <- ->.
      destruct (IH (x :: f) l v eq_refl Hnc Hf) as (u' & v' & ->).
      exists (c ++ w ++ u'), v'. by rewrite <- !app_assoc.
Qed.

Lemma fold_sub_keeps_factors : forall (l : list Re.pattern) s f u v,
  (forall p, In p l -> Re.leading_spaces p) ->
  fold_left (fun result p => Re.sub p (txt ", ") result) l s = u ++ f ++ v ->
  ~ In comma f -> lstrip f = f ->
  exists u' v', s = u' ++ f ++ v'.
Proof.
  induction l as [|p l IH]; intros s f u v Hl Hs Hnc Hf; simpl in Hs.
  - by exists u, v.
  - destruct (IH _ f u v (fun q Hq => Hl q (or_intror Hq)) Hs Hnc Hf) as (u1 & v1 & H1).
    eapply sub_keeps_factors; [apply Hl; by left | exact H1 | done..].
Qed.

(** X2: parse_artists invents nothing: every name it returns stands in the
    credit string as it is, as one contiguous run of characters. *)
Theorem parse_artists_names_are_substrings s a :
  In a (parse_artists s) -> exists u v, s = u ++ a ++ v.
Proof.
  rewrite parse_artists_unfold. intros Ha. apply filter_In in Ha as [Ha _].
  apply in_map_iff in Ha as (q & <- & Hq).
  destruct (split_elem _ _ _ Hq) as (Hnc & u & v & Hs & _).
  destruct (strip_decompose q) as (l & r & Hqd & _ & _).
  apply (fold_sub_keeps_factors rewrites s (strip q) (u ++ l) (r ++ v)).
  - apply rewrites_leading.
  - fold (rewrite_separators s). rewrite Hs. rewrite Hqd at 1. by rewrite <- !app_assoc.
  - intros Hin. apply Hnc. rewrite Hqd. apply in_app_iff. right. apply in_app_iff. by left.
  - apply strip_lstrip.
Qed.

Lemma parse_artists_names_are_substrings_witness :
  exists u v, txt "Artist A feat. Artist B" = u ++ txt "Artist B" ++ v.
Proof.
  apply (parse_artists_names_are_substrings (txt "Artist A feat. Artist B") (txt "Artist B")).
  vm_compute. tauto.
Defined.

(* ===================================================================== *)
(* 24. More on tags                                                      *)
(* ===================================================================== *)

Section MoreTags.

Variable setter_raises : FormatKind -> string -> bool.

(* The keys that a write does not name keep their values. *)
Lemma update_field_values ak vk fk a l a' key :
  key <> ak -> key <> vk -> key <> fk ->
  update_field setter_raises ak vk fk a l = Some a' ->
  values key a' = values key a.
Proof.
  intros Ha Hv Hf. unfold update_field, values. destruct a as [k t]. simpl.
  destruct k; simpl; try discriminate;
    destruct (setter_raises _ _); try discriminate;
    unfold set_item, set_frame, add_tags, tags_truthy; simpl;
    destruct t as [m|]; simpl;
    try (destruct (bool_decide (m = ∅)); simpl; try discriminate);
    intros [= <-]; simpl;
    try (destruct l; simpl);
    rewrite ?lookup_insert_ne, ?lookup_delete_ne, ?lookup_empty by done; done.
Qed.

(** X3: a field that was just written reads back as it was written: after
    update_artist (update_album_artist) returned True, get_current_artist
    (get_current_album_artist) gives the names joined by ';' for MP4, MP3,
    AIFF and WAVE, the first name for FLAC and Ogg Vorbis, and nothing when
    a FLAC or Ogg Vorbis field was given no name. *)
Theorem read_after_write a l :
  (forall a', update_artist setter_raises a l = Some a' ->
     get_current_artist a'
     = if is_native (kind a) then head l else Some (join (txt ";") l))
  /\ (forall a', update_album_artist setter_raises a l = Some a' ->
        get_current_album_artist a'
        = if is_native (kind a) then head l else Some (join (txt ";") l)).
Proof.
  split; intros a' H.
  - by apply (update_field_read setter_raises key_ART key_artist key_TPE1).
  - by apply (update_field_read setter_raises key_aART key_albumartist key_TPE2).
Qed.

(** X4: a write touches its own field only: update_artist leaves the class
    of the file, the album artist that is read and the values of every key
    but the artist keys as they were, and update_album_artist does the
    same with the roles exchanged. *)
Theorem write_touches_one_field a l a' :
  (update_artist setter_raises a l = Some a' ->
   kind a' = kind a
   /\ get_current_album_artist a' = get_current_album_artist a
   /\ forall key, key <> key_ART -> key <> key_artist -> key <> key_TPE1 ->
        values key a' = values key a)
  /\ (update_album_artist setter_raises a l = Some a' ->
      kind a' = kind a
      /\ get_current_artist a' = get_current_artist a
      /\ forall key, key <> key_aART -> key <> key_albumartist -> key <> key_TPE2 ->
           values key a' = values key a).
Proof.
  destruct keys_artist_album as (K1 & K2 & K3).
  destruct keys_album_artist as (K4 & K5 & K6).
  split; intros H.
  - split; [by eapply update_field_kind|]. split.
    + by apply (update_field_frame setter_raises key_ART key_artist key_TPE1
                  key_aART key_albumartist key_TPE2 a l a').
    + intros key H1 H2 H3.
      exact (update_field_values key_ART key_artist key_TPE1 a l a' key H1 H2 H3 H).
  - split; [by eapply update_field_kind|]. split.
    + by apply (update_field_frame setter_raises key_aART key_albumartist key_TPE2
                  key_ART key_artist key_TPE1 a l a').
    + intros key H1 H2 H3.
      exact (update_field_values key_aART key_albumartist key_TPE2 a l a' key H1 H2 H3 H).
Qed.

End MoreTags.

Lemma read_after_write_witness :
  get_current_artist (mkAudio MP3 (Some {[ key_TPE1 := [txt "A;B"] ]}))
  = Some (txt "A;B").
Proof.
  destruct (read_after_write Sample.no_fault (mkAudio MP3 None) [txt "A"; txt "B"])
    as [H _].
  apply (H (mkAudio MP3 (Some {[ key_TPE1 := [txt "A;B"] ]}))). reflexivity.
Defined.

Lemma write_touches_one_field_witness :
  kind (mkAudio MP4 (Some {[ key_ART := [txt "A;B"]; key_aART := [txt "C & D"] ]}))
  = kind Sample.mp4
  /\ get_current_album_artist
       (mkAudio MP4 (Some {[ key_ART := [txt "A;B"]; key_aART := [txt "C & D"] ]}))
     = get_current_album_artist Sample.mp4
  /\ forall key, key <> key_ART -> key <> key_artist -> key <> key_TPE1 ->
       values key (mkAudio MP4 (Some {[ key_ART := [txt "A;B"]; key_aART := [txt "C & D"] ]}))
       = values key Sample.mp4.
Proof.
  destruct (write_touches_one_field Sample.no_fault Sample.mp4 [txt "A"; txt "B"]
              (mkAudio MP4 (Some {[ key_ART := [txt "A;B"]; key_aART := [txt "C & D"] ]})))
    as [H _].
  apply H. vm_compute. reflexivity.
Defined.

(* ===================================================================== *)
(* 25. More on single files and batches                                  *)
(* ===================================================================== *)

Lemma append_cancel_r (a b s : string) : (a ++ s)%string = (b ++ s)%string -> a = b.
Proof.
  revert b. induction a as [|c a IH]; intros [|c' b] H; simpl in H.
  - done.
  - apply (f_equal String.length) in H. simpl in H. rewrite !append_length in H.
    simpl in H. lia.
  - apply (f_equal String.length) in H. simpl in H. rewrite !append_length in H.
    simpl in H. lia.
  - injection H as -> H. f_equal. by apply IH.
Qed.

(** X5: the backup of a file never has the path of the file itself, and two
    files backed up at the same time never get the same backup path. *)
Theorem backup_paths_do_not_clash now :
  (forall path, backup_path path now <> path)
  /\ (forall path1 path2,
        backup_path path1 now = backup_path path2 now -> path1 = path2).
Proof.
  split; [intros path; apply backup_path_fresh|].
  intros path1 path2 H. unfold backup_path in H. by apply append_cancel_r in H.
Qed.


Section MoreRuns.

Variable setter_raises : FormatKind -> string -> bool.
Variable now : DateTime.





(** X7: a music file that mutagen opens as a class the script does not
    know (Ogg Opus, say), or that has no tag container, is never changed:
    the call reports "No changes needed", prints nothing and leaves the
    disk as it is. *)
Theorem unknown_or_untagged_file_is_left_alone path dry_run backup d a :
  d !! path = Some (AudioFile a) ->
  kind a = OtherKind \/ tags a = None ->
  update_music_file setter_raises now path dry_run backup d
  = mkRun (mkResult true false NoChangesNeeded) d [].
Proof.
  intros Hd Ha.
  assert (H : get_current_artist a = None /\ get_current_album_artist a = None).
  { unfold get_current_artist, get_current_album_artist, get_current,
      has_key, tags_truthy.
    destruct Ha as [-> | ->]; [done|]. by destruct (kind a). }
  destruct H as [H1 H2].
  apply (update_music_file_settled setter_raises now path dry_run backup d a Hd).
  - by rewrite H1.
  - by rewrite H2.
Qed.

Lemma count_sum r st :
  processed (count r st) = processed st + 1
  /\ updated (count r st) + skipped (count r st) + errors (count r st)
     = updated st + skipped st + errors st + 1.
Proof.
  unfold count. destruct (success r), (changed r); simpl; lia.
Qed.

Lemma process_files_counts update files dry_run backup : forall st d tr,
  processed (fst (fst (process_files update files dry_run backup st d tr)))
  = processed st + length files
  /\ updated (fst (fst (process_files update files dry_run backup st d tr)))
     + skipped (fst (fst (process_files update files dry_run backup st d tr)))
     + errors (fst (fst (process_files update files dry_run backup st d tr)))
     = updated st + skipped st + errors st + length files.
Proof.
  induction files as [|f files IH]; intros st d tr; simpl; [lia|].
  destruct (IH (count (result (update f dry_run backup d)) st)
               (disk (update f dry_run backup d))
               (tr ++ trace (update f dry_run backup d))) as [H1 H2].
  destruct (count_sum (result (update f dry_run backup d)) st) as [H3 H4].
  rewrite H1, H2. lia.
Qed.

(** X8: the counters of a batch add up: every file found is counted as
    processed, and each processed file is counted exactly once more, as
    updated, as skipped or as an error. *)
Theorem batch_counters_add_up nfo_files music_files dry_run backup d :
  processed (fst (fst (process_directory setter_raises now nfo_files music_files
                         dry_run backup d)))
  = length nfo_files + length music_files
  /\ updated (fst (fst (process_directory setter_raises now nfo_files music_files
                          dry_run backup d)))
     + skipped (fst (fst (process_directory setter_raises now nfo_files music_files
                            dry_run backup d)))
     + errors (fst (fst (process_directory setter_raises now nfo_files music_files
                           dry_run backup d)))
     = length nfo_files + length music_files.
Proof.
  unfold process_directory.
  pose proof (process_files_counts (update_nfo_file now) nfo_files dry_run backup
                (mkStats 0 0 0 0) d []) as [H1 H2].
  destruct (process_files (update_nfo_file now) nfo_files dry_run backup
              (mkStats 0 0 0 0) d []) as [[st1 d1] tr1].
  pose proof (process_files_counts (update_music_file setter_raises now) music_files
                dry_run backup st1 d1 tr1) as [H3 H4].
  simpl in *. lia.
Qed.

End MoreRuns.


Lemma unknown_or_untagged_file_is_left_alone_witness :
  update_music_file Sample.no_fault Sample.time "song.opus" false true
    {[ "song.opus"%string :=
         AudioFile (mkAudio OtherKind (Some {[ key_artist := [txt "A feat. B"] ]})) ]}
  = mkRun (mkResult true false NoChangesNeeded)
      {[ "song.opus"%string :=
           AudioFile (mkAudio OtherKind (Some {[ key_artist := [txt "A feat. B"] ]})) ]} [].
Proof.
  apply (unknown_or_untagged_file_is_left_alone Sample.no_fault Sample.time "song.opus"
           false true _ (mkAudio OtherKind (Some {[ key_artist := [txt "A feat. B"] ]}))).
  - reflexivity.
  - by left.
Defined.

(* ===================================================================== *)
(* 26. A dry run and the run it previews                                 *)
(* ===================================================================== *)

Section Preview.

(* no assignment of a tag fails *)
Local Abbreviation never := (fun (_ : FormatKind) (_ : string) => false).

Variable now : DateTime.

















End Preview.

(* ===================================================================== *)
(* 27. What a written sidecar document keeps                             *)
(* ===================================================================== *)







(* ===================================================================== *)
(* 28. format-metadata.py: more on update_nfo_file                       *)
(* ===================================================================== *)

Lemma metadata_normalise_elem_eq dry_run t x cs :
  Metadata.normalise_elem dry_run (Elem t x cs)
  = (Elem t (if bool_decide (t = "artist"%string)
             then fst (Metadata.normalise_text dry_run x) else x)
       (map (fun c => fst (Metadata.normalise_elem dry_run c)) cs),
     (if bool_decide (t = "artist"%string)
      then snd (Metadata.normalise_text dry_run x) else [])
     ++ flat_map (fun c => snd (Metadata.normalise_elem dry_run c)) cs).
Proof.
  simpl.
  assert (Hgo : (fix go (l : list Element) : list Element * list Event :=
                   match l with
                   | [] => ([], [])
                   | c :: l' =>
                       let '(c', s1) := Metadata.normalise_elem dry_run c in
                       let '(l'', s2) := go l' in (c' :: l'', s1 ++ s2)
                   end) cs
                = (map (fun c => fst (Metadata.normalise_elem dry_run c)) cs,
                   flat_map (fun c => snd (Metadata.normalise_elem dry_run c)) cs)).
  { induction cs as [|c cs IH]; [done|]. rewrite IH.
    simpl. by destruct (Metadata.normalise_elem dry_run c). }
  rewrite Hgo.
  by destruct (bool_decide (t = "artist"%string));
    [destruct (Metadata.normalise_text dry_run x)|].
Qed.

Lemma metadata_normalise_below_eq dry_run t x cs :
  Metadata.normalise_below dry_run (Elem t x cs)
  = (Elem t x (map (fun c => fst (Metadata.normalise_elem dry_run c)) cs),
     flat_map (fun c => snd (Metadata.normalise_elem dry_run c)) cs).
Proof.
  unfold Metadata.normalise_below. f_equal.
  - f_equal. induction cs as [|c cs IH]; [done|]. simpl.
    destruct (Metadata.normalise_elem dry_run c). simpl. by rewrite IH.
  - induction cs as [|c cs IH]; [done|]. simpl.
    destruct (Metadata.normalise_elem dry_run c). simpl. by rewrite IH.
Qed.

Lemma metadata_normalise_text_prints dry_run x :
  Forall is_print (snd (Metadata.normalise_text dry_run x)).
Proof.
  unfold Metadata.normalise_text. destruct x as [s|]; [|constructor].
  destruct (truthy s); [|constructor].
  destruct (1 <? _); [|constructor].
  destruct (negb _); simpl; repeat constructor.
Qed.

Lemma metadata_normalise_elem_prints dry_run e :
  Forall is_print (snd (Metadata.normalise_elem dry_run e)).
Proof.
  induction e as [t x cs IH] using Element_induction.
  rewrite metadata_normalise_elem_eq. simpl. apply Forall_app. split.
  - destruct (bool_decide _); [apply metadata_normalise_text_prints | constructor].
  - induction IH as [|c cs Hc _ IHcs]; simpl; [constructor | by apply Forall_app].
Qed.

Lemma metadata_normalise_below_prints dry_run root :
  Forall is_print (snd (Metadata.normalise_below dry_run root)).
Proof.
  destruct root as [t x cs]. rewrite metadata_normalise_below_eq. simpl.
  induction cs as [|c cs IH]; simpl; [constructor|].
  apply Forall_app. split; [apply metadata_normalise_elem_prints | done].
Qed.

(* A text that the loop wrote, or left, is left by a later loop. *)
Lemma metadata_normalise_text_twice dry_run x :
  Metadata.normalise_text dry_run (fst (Metadata.normalise_text false x))
  = (fst (Metadata.normalise_text false x), []).
Proof.
  unfold Metadata.normalise_text at 2 3. destruct x as [s|]; [|done].
  destruct (truthy s) eqn:Ht; [|by simpl; rewrite Ht].
  destruct (1 <? length (parse_artists (strip s))) eqn:Hlen;
    [|by simpl; rewrite Ht, Hlen].
  destruct (text_eqb _ _) eqn:E; simpl.
  - by rewrite Ht, Hlen, E.
  - unfold format_artists_to_semicolon.
    assert (Hne : parse_artists (strip s) <> []) by (by destruct (parse_artists (strip s))).
    assert (Hc : clean_name (join (txt ";") (parse_artists (strip s))))
      by (apply join_clean; [done | apply parse_artists_all_clean]).
    destruct (join (txt ";") (parse_artists (strip s))) as [|c j] eqn:Ej;
      [by destruct Hc|].
    simpl truthy. cbv iota.
    rewrite (strip_fix _ (clean_lstrip _ Hc) (clean_rstrip _ Hc)).
    by rewrite (parse_artists_of_clean _ Hc).
Qed.

Lemma metadata_normalise_text_indentation dry_run n :
  Metadata.normalise_text dry_run (Some (indentation n)) = (Some (indentation n), []).
Proof.
  unfold Metadata.normalise_text.
  rewrite all_space_strip by apply indentation_all_space. by destruct (truthy _).
Qed.

Lemma metadata_fixed_list dry_run cs :
  Forall (fun c => Metadata.normalise_elem dry_run c = (c, [])) cs ->
  map (fun c => fst (Metadata.normalise_elem dry_run c)) cs = cs
  /\ flat_map (fun c => snd (Metadata.normalise_elem dry_run c)) cs = [].
Proof.
  induction 1 as [|c cs Hc _ [IH1 IH2]]; simpl; [done|].
  by rewrite Hc, IH1, IH2.
Qed.

Lemma metadata_normalise_elem_fixed dry_run t x cs :
  (t = "artist"%string -> Metadata.normalise_text dry_run x = (x, [])) ->
  Forall (fun c => Metadata.normalise_elem dry_run c = (c, [])) cs ->
  Metadata.normalise_elem dry_run (Elem t x cs) = (Elem t x cs, []).
Proof.
  intros Hx Hcs. rewrite metadata_normalise_elem_eq.
  destruct (metadata_fixed_list dry_run cs Hcs) as [H1 H2].
  rewrite H1, H2. case_bool_decide as Ht; [by rewrite (Hx Ht) | done].
Qed.

(* An element that went through the loop, indented or not, is left by a
   later loop. *)
Lemma metadata_normalise_elem_twice e : forall level dry_run,
  Metadata.normalise_elem dry_run
    (indent_children level (fst (Metadata.normalise_elem false e)))
  = (indent_children level (fst (Metadata.normalise_elem false e)), []).
Proof.
  induction e as [t x cs IH] using Element_induction. intros level dry_run.
  rewrite (metadata_normalise_elem_eq false). cbn [fst].
  assert (Hch : Forall (fun c => Metadata.normalise_elem dry_run c = (c, []))
                  (map (indent_children (S level))
                     (map (fun c => fst (Metadata.normalise_elem false c)) cs))).
  { apply List.Forall_forall. intros c Hc.
    apply in_map_iff in Hc as (c1 & <- & Hc). apply in_map_iff in Hc as (c0 & <- & Hc).
    rewrite List.Forall_forall in IH. apply (IH c0 Hc). }
  destruct cs as [|c cs].
  - cbn [map indent_children]. apply metadata_normalise_elem_fixed; [|constructor].
    intros ->. rewrite bool_decide_eq_true_2 by done.
    apply metadata_normalise_text_twice.
  - cbn [indent_children]. cbn [map]. cbn [map] in Hch.
    apply metadata_normalise_elem_fixed; [|exact Hch].
    intros ->. rewrite bool_decide_eq_true_2 by done.
    destruct (blank _); [apply metadata_normalise_text_indentation|].
    apply metadata_normalise_text_twice.
Qed.

Lemma metadata_normalise_below_fixed dry_run root :
  Forall (fun c => Metadata.normalise_elem dry_run c = (c, [])) (children root) ->
  Metadata.normalise_below dry_run root = (root, []).
Proof.
  destruct root as [t x cs]. simpl children. intros Hcs.
  rewrite metadata_normalise_below_eq.
  destruct (metadata_fixed_list dry_run cs Hcs) as [H1 H2].
  by rewrite H1, H2.
Qed.

Lemma children_indent root : children (indent root) = map (indent_children 1) (children root).
Proof. destruct root as [t x cs]. unfold indent. by destruct cs. Qed.

Section MoreMetadata.

Variable search_album_on_musicbrainz : text -> text -> option text.
Variable get_genres_from_musicbrainz : text -> list text.
Variable now : DateTime.

Local Abbreviation update :=
  (Metadata.update_nfo_file search_album_on_musicbrainz get_genres_from_musicbrainz now).
Local Abbreviation genres_step :=
  (Metadata.fetch_genres_step search_album_on_musicbrainz get_genres_from_musicbrainz).

(* The children of the tree after the genre block: children of the tree
   before it, or new genre elements. *)
Lemma fetch_genres_step_children force_genres root root2 changed2 c :
  genres_step force_genres root = Some (root2, changed2) ->
  In c (children root2) ->
  In c (children root) \/ exists g, c = Elem "genre" (Some g) [].
Proof.
  unfold Metadata.fetch_genres_step.
  destruct (Metadata.needs_genre_fetch _ _); [|intros [= <- _]; by left].
  destruct (Metadata.resolve_mb_id _ _) as [mb_id|]; [|intros [= <- _]; by left].
  destruct (get_genres_from_musicbrainz mb_id) as [|g l] eqn:E; [intros [= <- _]; by left|].
  destruct root as [t x cs]. unfold Metadata.remove_genres.
  destruct (forallb _ cs); [|discriminate]. intros [= <- _]. simpl.
  intros Hc. apply in_app_iff in Hc as [Hc|Hc].
  - left. by apply filter_In in Hc as [Hc _].
  - right. change (In c (map (fun g => Elem "genre" (Some g) []) (g :: l))) in Hc.
    apply in_map_iff in Hc as (g0 & <- & _). by exists g0.
Qed.

(* The shape of every run of update_nfo_file. *)
Lemma metadata_update_nfo_file_trace path dry_run backup fetch_genres force_genres d :
  (disk (update path dry_run backup fetch_genres force_genres d) = d
   /\ Forall is_print (trace (update path dry_run backup fetch_genres force_genres d))
   /\ result (update path dry_run backup fetch_genres force_genres d)
      <> mkResult true true UpdatedSuccessfully)
  \/ (dry_run = false
      /\ result (update path dry_run backup fetch_genres force_genres d)
         = mkResult true true UpdatedSuccessfully
      /\ exists root root2 changed2 shown,
           d !! path = Some (XmlFile root)
           /\ (if fetch_genres
               then genres_step force_genres (fst (Metadata.normalise_below false root))
               else Some (fst (Metadata.normalise_below false root), false))
              = Some (root2, changed2)
           /\ Forall is_print shown
           /\ trace (update path dry_run backup fetch_genres force_genres d)
              = shown ++ (if backup then [Copy2 path (backup_path path now)] else [])
                      ++ [Save path]
           /\ disk (update path dry_run backup fetch_genres force_genres d)
              = <[path := XmlFile (indent root2)]>
                  (if backup then copy2 path (backup_path path now) d else d)).
Proof.
  unfold Metadata.update_nfo_file.
  destruct (d !! path) as [[a|root|b]|] eqn:Hd; simpl;
    try (left; split; [done|]; split; [constructor | done]).
  pose proof (metadata_normalise_below_prints dry_run root) as Hp.
  destruct (Metadata.normalise_below dry_run root) as [root1 shown] eqn:E1.
  simpl in Hp.
  destruct (if fetch_genres then _ else _) as [[root2 changed2]|] eqn:E2;
    [|left; simpl; by split].
  destruct (negb (bool_decide (shown = [])) || changed2); simpl.
  - destruct dry_run; simpl; [left; by split|].
    right. split; [done|]. split; [done|].
    exists root, root2, changed2, shown. rewrite E1. simpl. by repeat split.
  - destruct dry_run; simpl; left; by split.
Qed.

(** X12: format-metadata.py, second run: when a call of update_nfo_file has
    updated a document, with or without genres, a call without genre
    fetching that follows finds the artists as it wants them: it reports "No
    changes needed", prints nothing and leaves the disk as it is. *)
Theorem metadata_second_run_changes_nothing
  path backup fetch_genres force_genres backup' dry_run' force_genres' d :
  result (Metadata.update_nfo_file search_album_on_musicbrainz
            get_genres_from_musicbrainz now path false backup fetch_genres
            force_genres d)
  = mkResult true true UpdatedSuccessfully ->
  Metadata.update_nfo_file search_album_on_musicbrainz get_genres_from_musicbrainz now
    path dry_run' backup' false force_genres'
    (disk (update path false backup fetch_genres force_genres d))
  = mkRun (mkResult true false NoChangesNeeded)
      (disk (update path false backup fetch_genres force_genres d)) [].
Proof.
  intros Hres.
  destruct (metadata_update_nfo_file_trace path false backup fetch_genres force_genres d)
    as [(_ & _ & H)|(_ & _ & root & root2 & changed2 & shown & Hd & Hstep & _ & _ & ->)];
    [done|].
  unfold Metadata.update_nfo_file at 1. rewrite lookup_insert_eq.
  rewrite metadata_normalise_below_fixed; [done|].
  rewrite children_indent. apply List.Forall_forall. intros c Hc.
  apply in_map_iff in Hc as (c2 & <- & Hc2).
  assert (H1 : In c2 (children (fst (Metadata.normalise_below false root)))
               \/ exists g, c2 = Elem "genre" (Some g) []).
  { destruct fetch_genres.
    - by eapply fetch_genres_step_children.
    - injection Hstep as <- _. by left. }
  destruct H1 as [H1|[g ->]].
  - destruct root as [t x cs]. rewrite metadata_normalise_below_eq in H1. simpl in H1.
    apply in_map_iff in H1 as (c0 & <- & _). apply metadata_normalise_elem_twice.
  - done.
Qed.

(** X13: format-metadata.py, a genre element that is not a child of the
    root: when the lookup is triggered and returns genres, the removal of
    the old genre elements raises, the call reports an error and nothing is
    written, the artists that were already rewritten in memory included. *)
Theorem nested_genre_fails_the_update path dry_run backup force_genres d root mb_id :
  d !! path = Some (XmlFile root) ->
  Metadata.needs_genre_fetch force_genres
    (findall "genre" (fst (Metadata.normalise_below dry_run root))) = true ->
  Metadata.resolve_mb_id search_album_on_musicbrainz
    (fst (Metadata.normalise_below dry_run root)) = Some mb_id ->
  get_genres_from_musicbrainz mb_id <> [] ->
  (exists c, In c (children (fst (Metadata.normalise_below dry_run root)))
             /\ findall "genre" c <> []) ->
  update path dry_run backup true force_genres d
  = mkRun (mkResult false false Error) d (snd (Metadata.normalise_below dry_run root)).
Proof.
  intros Hd Htrig Hid Hg (c & Hc & Hnested).
  unfold Metadata.update_nfo_file. rewrite Hd.
  destruct (Metadata.normalise_below dry_run root) as [root1 shown]. simpl in *.
  unfold Metadata.fetch_genres_step. rewrite Htrig, Hid.
  destruct (get_genres_from_musicbrainz mb_id) as [|g l]; [done|].
  destruct root1 as [t x cs]. unfold Metadata.remove_genres. simpl in Hc.
  assert (Hf : forallb (fun c => bool_decide (findall "genre" c = [])) cs = false).
  { apply not_true_iff_false. intros Hall. rewrite forallb_forall in Hall.
    specialize (Hall c Hc). by apply bool_decide_eq_true in Hall. }
  by rewrite Hf.
Qed.


(** X15: format-metadata.py, a lookup that returns no genre: when
    MusicBrainz has no genre for any identifier, a call with genre fetching
    on, forced or not, returns the triple, leaves the disk and shows the
    artist lines, the copy and the save of the call with genre fetching
    off; the genres of the document stay. *)
Theorem empty_lookup_is_no_lookup path dry_run backup force_genres d :
  (forall mb_id, get_genres_from_musicbrainz mb_id = []) ->
  Metadata.update_nfo_file search_album_on_musicbrainz get_genres_from_musicbrainz now
    path dry_run backup true force_genres d
  = Metadata.update_nfo_file search_album_on_musicbrainz get_genres_from_musicbrainz now
      path dry_run backup false force_genres d.
Proof.
  intros Hempty. unfold Metadata.update_nfo_file.
  destruct (d !! path) as [[a|root|b]|]; try done.
  destruct (Metadata.normalise_below dry_run root) as [root1 shown].
  assert (H : genres_step force_genres root1 = Some (root1, false)).
  { unfold Metadata.fetch_genres_step.
    destruct (Metadata.needs_genre_fetch _ _); [|done].
    destruct (Metadata.resolve_mb_id _ _) as [mb_id|]; [|done]. by rewrite Hempty. }
  by rewrite H.
Qed.

Lemma metadata_process_files_counts files dry_run backup fetch_genres force_genres :
  forall st d tr,
    Metadata.processed
      (fst (fst (Metadata.process_files search_album_on_musicbrainz
                   get_genres_from_musicbrainz now files dry_run backup fetch_genres
                   force_genres st d tr)))
    = Metadata.processed st + length files
    /\ Metadata.updated
         (fst (fst (Metadata.process_files search_album_on_musicbrainz
                      get_genres_from_musicbrainz now files dry_run backup fetch_genres
                      force_genres st d tr)))
       + Metadata.errors
           (fst (fst (Metadata.process_files search_album_on_musicbrainz
                        get_genres_from_musicbrainz now files dry_run backup fetch_genres
                        force_genres st d tr)))
       <= Metadata.updated st + Metadata.errors st + length files.
Proof.
  induction files as [|f files IH]; intros st d tr; simpl; [lia|].
  destruct (IH (Metadata.count (result (update f dry_run backup fetch_genres force_genres d)) st)
               (disk (update f dry_run backup fetch_genres force_genres d))
               (tr ++ trace (update f dry_run backup fetch_genres force_genres d)))
    as [H1 H2].
  assert (H3 : forall r,
             Metadata.processed (Metadata.count r st) = Metadata.processed st + 1
             /\ Metadata.updated (Metadata.count r st) + Metadata.errors (Metadata.count r st)
                <= Metadata.updated st + Metadata.errors st + 1).
  { intros r. unfold Metadata.count. destruct (success r), (changed r); simpl; lia. }
  destruct (H3 (result (update f dry_run backup fetch_genres force_genres d))) as [H4 H5].
  split; [rewrite H1, H4; lia | lia].
Qed.

(** X16: format-metadata.py, the counters of a batch: every file found is
    counted as processed, and the files counted as updated and as errors
    are together no more than the files processed. *)
Theorem metadata_batch_counters nfo_files dry_run backup fetch_genres force_genres d :
  Metadata.processed
    (fst (fst (Metadata.process_directory search_album_on_musicbrainz
                 get_genres_from_musicbrainz now nfo_files dry_run backup fetch_genres
                 force_genres d)))
  = length nfo_files
  /\ Metadata.updated
       (fst (fst (Metadata.process_directory search_album_on_musicbrainz
                    get_genres_from_musicbrainz now nfo_files dry_run backup fetch_genres
                    force_genres d)))
     + Metadata.errors
         (fst (fst (Metadata.process_directory search_album_on_musicbrainz
                      get_genres_from_musicbrainz now nfo_files dry_run backup
                      fetch_genres force_genres d)))
     <= length nfo_files.
Proof.
  unfold Metadata.process_directory.
  destruct (metadata_process_files_counts nfo_files dry_run backup fetch_genres
              force_genres (Metadata.mkStats 0 0 0) d []) as [H1 H2].
  simpl in *. lia.
Qed.

End MoreMetadata.

Lemma metadata_second_run_changes_nothing_witness :
  Metadata.update_nfo_file Sample.search Sample.genres Sample.time "album.nfo"
    true false false false
    (disk (Metadata.update_nfo_file Sample.search Sample.genres Sample.time "album.nfo"
             false true true false Sample.library))
  = mkRun (mkResult true false NoChangesNeeded)
      (disk (Metadata.update_nfo_file Sample.search Sample.genres Sample.time "album.nfo"
               false true true false Sample.library)) [].
Proof.
  apply (metadata_second_run_changes_nothing Sample.search Sample.genres Sample.time
           "album.nfo" true true false false true false Sample.library).
  reflexivity.
Defined.

Lemma nested_genre_fails_the_update_witness :
  Metadata.update_nfo_file Sample.search Sample.genres Sample.time "album.nfo"
    false true true false {[ "album.nfo"%string := XmlFile nested_genre_album ]}
  = mkRun (mkResult false false Error)
      {[ "album.nfo"%string := XmlFile nested_genre_album ]}
      (snd (Metadata.normalise_below false nested_genre_album)).
Proof.
  apply (nested_genre_fails_the_update Sample.search Sample.genres Sample.time
           "album.nfo" false true false
           {[ "album.nfo"%string := XmlFile nested_genre_album ]}
           nested_genre_album (txt "mbid-1")).
  - reflexivity.
  - reflexivity.
  - reflexivity.
  - vm_compute. discriminate.
  - exists (Elem "info" None [ Elem "genre" (Some (txt "music")) [] ]). split.
    + vm_compute. right. right. left. reflexivity.
    + vm_compute. discriminate.
Defined.

Lemma empty_lookup_is_no_lookup_witness :
  Metadata.update_nfo_file Sample.search (fun _ => []) Sample.time "album.nfo"
    false true true true Sample.library
  = Metadata.update_nfo_file Sample.search (fun _ => []) Sample.time "album.nfo"
      false true false true Sample.library.
Proof.
  apply (empty_lookup_is_no_lookup Sample.search (fun _ => []) Sample.time
           "album.nfo" false true true Sample.library).
  intros mb_id. reflexivity.
Defined.

(* ===================================================================== *)
(* 29. The parser: the names it returns                                  *)
(* ===================================================================== *)

(** X17: parse_artists, the names it returns: every name is not empty, has
    no white space at its ends and no comma, and the parser returns it
    alone when it is given it again. *)
Theorem parse_artists_names_are_clean s a :
  In a (parse_artists s) ->
  a <> [] /\ strip a = a /\ ~ In comma a /\ parse_artists a = [a].
Proof.
  intros H. pose proof (parse_artists_clean s a H) as Hc.
  split; [apply Hc|]. split; [apply strip_fix; apply Hc|].
  split; [apply Hc | by apply parse_artists_of_clean].
Qed.

Lemma parse_artists_names_are_clean_witness :
  txt "B" <> [] /\ strip (txt "B") = txt "B" /\ ~ In comma (txt "B")
  /\ parse_artists (txt "B") = [txt "B"].
Proof.
  apply (parse_artists_names_are_clean (txt "A feat. B") (txt "B")).
  vm_compute. right. left. reflexivity.
Defined.

(** X18: format_artists_to_semicolon and parse_artists are no round trip:
    the names joined with semicolons are one name for the parser, which
    returns the joined text alone instead of the names it was made of. *)
Theorem formatted_names_are_one_name s :
  parse_artists s <> [] ->
  parse_artists (format_artists_to_semicolon (parse_artists s))
  = [format_artists_to_semicolon (parse_artists s)].
Proof. apply parse_join_parse. Qed.

Lemma formatted_names_are_one_name_witness :
  parse_artists (format_artists_to_semicolon (parse_artists (txt "A feat. B")))
  = [format_artists_to_semicolon (parse_artists (txt "A feat. B"))].
Proof.
  apply (formatted_names_are_one_name (txt "A feat. B")). vm_compute. discriminate.
Defined.

(* ===================================================================== *)
(* 30. Music files: a value made of separators only                      *)
(* ===================================================================== *)

Section Separators.

Variable now : DateTime.

Local Abbreviation never := (fun (_ : FormatKind) (_ : string) => false).


End Separators.


(* ===================================================================== *)
(* 31. format-metadata.py: the dry run and the run proper                *)
(* ===================================================================== *)















Section MetadataPreview.

Variable search_album_on_musicbrainz : text -> text -> option text.
Variable get_genres_from_musicbrainz : text -> list text.
Variable now : DateTime.

Local Abbreviation update :=
  (Metadata.update_nfo_file search_album_on_musicbrainz get_genres_from_musicbrainz now).
Local Abbreviation genres_step :=
  (Metadata.fetch_genres_step search_album_on_musicbrainz get_genres_from_musicbrainz).



End MetadataPreview.


(* ===================================================================== *)
(* 32. The batch: the summary of a dry run                               *)
(* ===================================================================== *)

Section Batch.

Variable now : DateTime.

Local Abbreviation never := (fun (_ : FormatKind) (_ : string) => false).









End Batch.

